(** * The directed graph engine of [directed.go]

    A shallow embedding of the [directed[K, T]] type and of its methods,
    followed by the properties of the engine: error behaviour of the edge
    insertion, the cycle pre-check, the traversals and the degree. *)

From stdpp Require Import base option list relations sets gmap fin_maps strings sorting.
From Stdlib Require Import ZArith Lia.

Set Default Proof Using "Type*".
Set Warnings "-clear-no-such-hyp".

(** ** Iteration order of Go maps

    A [for k := range m] loop enumerates the keys of [m] in an order that
    the language leaves unspecified and that may differ from one loop to
    the next.  A [RangeOrder] is one schedule of such orders: the [n]-th
    [range] loop of a call sees the keys as [range_order n keys], some
    rearrangement of them. *)
Record RangeOrder (K : Type) := {
  range_order : nat → list K → list K;
  range_order_perm : ∀ n l, range_order n l ≡ₚ l
}.
Arguments range_order {K} _ _ _.
Arguments range_order_perm {K} _ _ _.

(** The schedule that keeps the canonical order of the key list. *)
Definition canonicalOrder (K : Type) : RangeOrder K :=
  {| range_order := λ _ l, l;
     range_order_perm := λ _ l, reflexivity l |}.

(** The schedule that reverses the key list in every loop. *)
Definition reversedOrder (K : Type) : RangeOrder K :=
  {| range_order := λ _ l, reverse l;
     range_order_perm := λ _ l, reverse_Permutation l |}.

(** Outcome of one iteration of a [for] loop. *)
Inductive iteration (State : Type) : Type :=
  | Continue (s : State)   (* the body ran through; test the condition again *)
  | Exit (s : State).      (* the condition was false, or the body hit [break]/[return] *)
Arguments Continue {State} s.
Arguments Exit {State} s.

(** [iterate fuel body s] runs the loop for at most [fuel] iterations and
    returns the state it exits with.  The loops of [directed.go] are run
    with fuel computed from the graph; they are shown below to exit before
    it is used up, whatever the graph and the callback. *)
Fixpoint iterate {State : Type} (fuel : nat) (body : State → iteration State) (s : State) : option State :=
  match fuel with
  | O => None
  | S fuel' =>
      match body s with
      | Exit s' => Some s'
      | Continue s' => iterate fuel' body s'
      end
  end.

(** The state after exactly [n] iterations, when the loop runs that long. *)
Fixpoint after {State : Type} (n : nat) (body : State → iteration State) (s : State) : option State :=
  match n with
  | O => Some s
  | S n' =>
      match body s with
      | Exit _ => None
      | Continue s' => after n' body s'
      end
  end.

(** The zero value of a Go type: what a map lookup yields for an absent key
    and what an uninitialised variable holds. *)
Class Zero (T : Type) : Type := zero : T.
Global Hint Mode Zero ! : typeclass_instances.

Global Instance nat_zero : Zero nat := O.
Global Instance Z_zero : Zero Z := 0%Z.
Global Instance prod_zero {A B : Type} `{Zero A, Zero B} : Zero (A * B) := (zero, zero).

(** ** The graph

    [K comparable] is a countable type with decidable equality, [T any] a
    type with its zero value. *)
Section Directed.
Context {K : Type} `{Countable K}.
Context {T : Type} `{Zero T}.

(** [Edge[T]] as [directed.go] builds it: [Edge[T]{Source, Target, Weight}]. *)
Record Edge : Type := { Source : T; Target : T; Weight : Z }.

(** The [properties] of a graph; [directed.go] reads [isAcyclic] only. *)
Record properties : Type := { isAcyclic : bool }.

(** The field [properties] is [props] here, next to the type of that name. *)
Record directed : Type := {
  hash : T → K;
  props : properties;
  vertices : gmap K T;
  edges : gmap K (gmap K Edge);
  outEdges : gmap K (gmap K Edge);
  inEdges : gmap K (gmap K Edge)
}.

(** The errors of [directed.go], one constructor per [fmt.Errorf] site. *)
Inductive error : Type :=
  | ErrSourceNotFound (sourceHash : K)       (* could not find source vertex with hash %v *)
  | ErrTargetNotFound (targetHash : K)       (* could not find target vertex with hash %v *)
  | ErrEdgeExists (sourceHash targetHash : K) (* an edge between vertices %v and %v already exists *)
  | ErrCycleCheckFailed (err : error)        (* failed to check for cycles: %w *)
  | ErrIntroducesCycle (sourceHash targetHash : K) (* an edge between %v and %v would introduce a cycle *)
  | ErrStartNotFound (startHash : K)         (* could not find start vertex with hash %v *)
  | ErrVertexNotFound (vertexHash : K)       (* could not find vertex with hash %v *)
  | ErrCheckSourceNotFound (source : T)      (* CreatesCycleByHashes: could not find source vertex with hash %v *)
  | ErrCheckTargetNotFound (source : T).     (* CreatesCycleByHashes: could not find target vertex with hash %v *)

(** The error kinds the specification speaks of. *)
Inductive errorKind : Type := NotFound | AlreadyExists | WouldCreateCycle.

(** The kind of an error; a wrapped error ([%w]) keeps the kind of its cause. *)
Fixpoint kindOf (e : error) : errorKind :=
  match e with
  | ErrSourceNotFound _ | ErrTargetNotFound _ | ErrStartNotFound _
  | ErrVertexNotFound _ | ErrCheckSourceNotFound _ | ErrCheckTargetNotFound _ => NotFound
  | ErrEdgeExists _ _ => AlreadyExists
  | ErrIntroducesCycle _ _ => WouldCreateCycle
  | ErrCycleCheckFailed err => kindOf err
  end.

Definition newDirected (hash : T → K) (properties : properties) : directed :=
  {| hash := hash; props := properties;
     vertices := ∅; edges := ∅; outEdges := ∅; inEdges := ∅ |}.

(** [Vertex] has no result: it stores [value] under its hash. *)
Definition Vertex (d : directed) (value : T) : directed :=
  {| hash := hash d; props := props d;
     vertices := <[hash d value := value]> (vertices d);
     edges := edges d; outEdges := outEdges d; inEdges := inEdges d |}.

(** The keys of a map, in the order the [n]-th [range] loop yields them. *)
Definition rangeKeys {V : Type} (ord : RangeOrder K) (n : nat) (m : gmap K V) : list K :=
  range_order ord n (map_to_list m).*1.

(** [m[a]] for a map of maps: the inner map, or the nil map. *)
Definition inner (m : gmap K (gmap K Edge)) (a : K) : gmap K Edge :=
  default ∅ (m !! a).

(** [if _, ok := m[a]; !ok { m[a] = make(map[K]Edge[T]) }; m[a][b] = edge] *)
Definition setEdge (m : gmap K (gmap K Edge)) (a b : K) (edge : Edge) : gmap K (gmap K Edge) :=
  let m' := match m !! a with Some _ => m | None => <[a := ∅]> m end in
  <[a := <[b := edge]> (inner m' a)]> m'.

Definition addEdge (d : directed) (sourceHash targetHash : K) (edge : Edge) : directed :=
  {| hash := hash d; props := props d; vertices := vertices d;
     edges := setEdge (edges d) sourceHash targetHash edge;
     outEdges := setEdge (outEdges d) sourceHash targetHash edge;
     inEdges := setEdge (inEdges d) targetHash sourceHash edge |}.

Definition zeroEdge : Edge := {| Source := zero; Target := zero; Weight := 0 |}.

Definition GetEdgeByHashes (d : directed) (sourceHash targetHash : K) : Edge * bool :=
  match edges d !! sourceHash with
  | None => (zeroEdge, false)
  | Some sourceEdges =>
      match sourceEdges !! targetHash with
      | Some edge => (edge, true)
      | None => (zeroEdge, false)
      end
  end.

Definition predecessors (ord : RangeOrder K) (n : nat) (d : directed) (vertexHash : K) : list K :=
  match inEdges d !! vertexHash with
  | None => []
  | Some inEdges => rangeKeys ord n inEdges
  end.

(** *** Edge relations *)

(** [b] is a key of the index [m] under [a]. *)
Definition linked (m : gmap K (gmap K Edge)) (a b : K) : Prop :=
  is_Some (inner m a !! b).

(** [successor d a b]: the forward index has an edge from [a] to [b]. *)
Definition successor (d : directed) : relation K := linked (outEdges d).

(** [predecessor d a b]: the reverse index lists [b] as a predecessor of [a]. *)
Definition predecessor (d : directed) : relation K := linked (inEdges d).

(** *** The loop of [CreatesCycleByHashes]

    The stack is kept with its top first: [push] is [::] and pushing a
    list of hashes one after the other leaves them reversed on top. *)
Record checkState : Type := {
  ck_stack : list K;
  ck_visited : gset K;
  ck_tick : nat;           (* number of [range] loops run so far *)
  ck_found : bool          (* set by [return true, nil] *)
}.

Definition checkBody (ord : RangeOrder K) (d : directed) (targetHash : K)
    (s : checkState) : iteration checkState :=
  match ck_stack s with
  | [] => Exit s
  | currentHash :: stack =>
      if decide (currentHash ∈ ck_visited s) then
        Continue {| ck_stack := stack; ck_visited := ck_visited s;
                    ck_tick := ck_tick s; ck_found := ck_found s |}
      else if decide (currentHash = targetHash) then
        Exit {| ck_stack := stack; ck_visited := ck_visited s;
                ck_tick := ck_tick s; ck_found := true |}
      else
        Continue {| ck_stack := reverse (predecessors ord (ck_tick s) d currentHash) ++ stack;
                    ck_visited := {[currentHash]} ∪ ck_visited s;
                    ck_tick := S (ck_tick s); ck_found := ck_found s |}
  end.

(** Number of entries of a two-level index. *)
Definition entryCount (m : gmap K (gmap K Edge)) : nat :=
  sum_list_with (λ kv, size kv.2) (map_to_list m).

(** Number of entries of the index under the keys outside [seen]: the
    hashes a walk may still push. *)
Definition pending (m : gmap K (gmap K Edge)) (seen : gset K) : nat :=
  sum_list_with (λ kv, if decide (kv.1 ∈ seen) then 0 else size kv.2) (map_to_list m).

(** The state in which the loop is entered: [stack = append(stack, sourceHash)]. *)
Definition checkStart (sourceHash : K) : checkState :=
  {| ck_stack := [sourceHash]; ck_visited := ∅; ck_tick := 0; ck_found := false |}.

(** What bounds the iterations still to come: the hashes on the stack and
    the predecessor entries of the hashes not yet visited. *)
Definition checkMeasure (d : directed) (s : checkState) : nat :=
  length (ck_stack s) + pending (inEdges d) (ck_visited s).

(** What the walk over the predecessors knows at the head of the loop. *)
Record checkInv (d : directed) (source target : K) (s : checkState) : Prop := {
  ck_reach : ∀ x, x ∈ ck_stack s ∨ x ∈ ck_visited s → rtc (predecessor d) source x;
  ck_target : target ∉ ck_visited s;
  ck_source : source ∈ ck_stack s ∨ source ∈ ck_visited s;
  ck_closed : ∀ v w, v ∈ ck_visited s → predecessor d v w →
                w ∈ ck_stack s ∨ w ∈ ck_visited s;
  ck_running : ck_found s = false
}.

(** [CreatesCycleByHashes] reads the graph only; the graph it leaves behind
    is returned next to its two results.  [None] stands for a loop that
    is still running when the fuel is used up. *)
Definition CreatesCycleByHashes (ord : RangeOrder K) (d : directed)
    (sourceHash targetHash : K) : option (bool * option error * directed) :=
  match vertices d !! sourceHash with
  | None => Some (false, Some (ErrCheckSourceNotFound zero), d)
  | Some source =>
      match vertices d !! targetHash with
      | None => Some (false, Some (ErrCheckTargetNotFound source), d)
      | Some _ =>
          if decide (sourceHash = targetHash) then Some (true, None, d)
          else
            s ← iterate (entryCount (inEdges d) + 2) (checkBody ord d targetHash)
                  (checkStart sourceHash);
            Some (ck_found s, None, d)
      end
  end.

Definition WeightedEdgeByHashes (ord : RangeOrder K) (d : directed)
    (sourceHash targetHash : K) (weight : Z) : option (option error * directed) :=
  match vertices d !! sourceHash with
  | None => Some (Some (ErrSourceNotFound sourceHash), d)
  | Some source =>
      match vertices d !! targetHash with
      | None => Some (Some (ErrTargetNotFound targetHash), d)
      | Some target =>
          if (GetEdgeByHashes d sourceHash targetHash).2 then
            Some (Some (ErrEdgeExists sourceHash targetHash), d)
          else
            (* if d.properties.isAcyclic { ... } *)
            '(refused, d) ←
              (if isAcyclic (props d) then
                 '(createsCycle, err, d) ← CreatesCycleByHashes ord d sourceHash targetHash;
                 match err with
                 | Some err => Some (Some (ErrCycleCheckFailed err), d)
                 | None =>
                     if (createsCycle : bool)
                     then Some (Some (ErrIntroducesCycle sourceHash targetHash), d)
                     else Some (None, d)
                 end
               else Some (None, d));
            match refused with
            | Some err => Some (Some err, d)
            | None =>
                let edge := {| Source := source; Target := target; Weight := weight |} in
                Some (None, addEdge d sourceHash targetHash edge)
            end
      end
  end.

(** The methods that take vertices hash them and go on by hash. *)
Definition WeightedEdge (ord : RangeOrder K) (d : directed) (source target : T) (weight : Z)
    : option (option error * directed) :=
  WeightedEdgeByHashes ord d (hash d source) (hash d target) weight.

(** The method [Edge] is [WeightedEdge] with weight 0; its name is taken by
    the type of edges here. *)
Definition EdgeByHashes (ord : RangeOrder K) (d : directed) (sourceHash targetHash : K)
    : option (option error * directed) :=
  WeightedEdgeByHashes ord d sourceHash targetHash 0.

Definition GetEdge (d : directed) (source target : T) : Edge * bool :=
  GetEdgeByHashes d (hash d source) (hash d target).

Definition CreatesCycle (ord : RangeOrder K) (d : directed) (source target : T)
    : option (bool * option error * directed) :=
  CreatesCycleByHashes ord d (hash d source) (hash d target).

Definition edgesAreEqual (d : directed) (a b : Edge) : bool :=
  bool_decide (hash d (Source a) = hash d (Source b))
  && bool_decide (hash d (Target a) = hash d (Target b)).

(** The outcomes of [WeightedEdgeByHashes], one per path through its body. *)
Inductive edgeOutcome (ord : RangeOrder K) (d : directed) (source target : K) (weight : Z)
    : option error → directed → Prop :=
  | NoSource :
      vertices d !! source = None →
      edgeOutcome ord d source target weight (Some (ErrSourceNotFound source)) d
  | NoTarget vs :
      vertices d !! source = Some vs → vertices d !! target = None →
      edgeOutcome ord d source target weight (Some (ErrTargetNotFound target)) d
  | Duplicate vs vt :
      vertices d !! source = Some vs → vertices d !! target = Some vt →
      (GetEdgeByHashes d source target).2 = true →
      edgeOutcome ord d source target weight (Some (ErrEdgeExists source target)) d
  | Cycle vs vt :
      vertices d !! source = Some vs → vertices d !! target = Some vt →
      (GetEdgeByHashes d source target).2 = false →
      isAcyclic (props d) = true →
      CreatesCycleByHashes ord d source target = Some (true, None, d) →
      edgeOutcome ord d source target weight (Some (ErrIntroducesCycle source target)) d
  | Inserted vs vt :
      vertices d !! source = Some vs → vertices d !! target = Some vt →
      (GetEdgeByHashes d source target).2 = false →
      (isAcyclic (props d) = true →
         CreatesCycleByHashes ord d source target = Some (false, None, d)) →
      edgeOutcome ord d source target weight None
        (addEdge d source target {| Source := vs; Target := vt; Weight := weight |}).

(** *** Traversals

    The callback [visit] may keep state of its own (a Go closure): it is a
    function from its state [St] and the vertex to the stop signal and its
    next state.  A traversal records in [calls] the hashes of the vertices
    it passed to [visit], in the order of the calls. *)
Section Traversal.
Context {St : Type}.
Variable visit : St → T → bool * St.

Record walkState : Type := {
  work : list K;          (* the stack (top first) or the queue (front first) *)
  visited : gset K;
  tick : nat;             (* number of [range] loops run so far *)
  calls : list K;
  closure : St
}.

Definition dfsBody (ord : RangeOrder K) (d : directed) (s : walkState) : iteration walkState :=
  match work s with
  | [] => Exit s
  | currentHash :: stack =>
      let currentVertex := default zero (vertices d !! currentHash) in
      if decide (currentHash ∈ visited s) then
        Continue {| work := stack; visited := visited s; tick := tick s;
                    calls := calls s; closure := closure s |}
      else
        let '(stop, st) := visit (closure s) currentVertex in
        if (stop : bool) then
          Exit {| work := stack; visited := visited s; tick := tick s;
                  calls := calls s ++ [currentHash]; closure := st |}
        else
          Continue {| work := reverse (rangeKeys ord (tick s) (inner (outEdges d) currentHash)) ++ stack;
                      visited := {[currentHash]} ∪ visited s;
                      tick := S (tick s);
                      calls := calls s ++ [currentHash]; closure := st |}
  end.

(** [stack = append(stack, startHash)] *)
Definition dfsStart (startHash : K) (st : St) : walkState :=
  {| work := [startHash]; visited := ∅; tick := 0; calls := []; closure := st |}.

(** The result holds the error, the hashes [visit] was called on, in the
    order of the calls, and the final state of the callback.  [None]
    stands for a loop that is still running when the fuel is used up. *)
Definition DFSByHash (ord : RangeOrder K) (d : directed) (startHash : K) (st : St)
    : option (option error * list K * St) :=
  match vertices d !! startHash with
  | None => Some (Some (ErrStartNotFound startHash), [], st)
  | Some _ =>
      s ← iterate (entryCount (outEdges d) + 2) (dfsBody ord d) (dfsStart startHash st);
      Some (None, calls s, closure s)
  end.

(** [if _, ok := visited[adjacency]; !ok { visited[adjacency] = true;
    queue = append(queue, adjacency) }] *)
Definition enqueueNew (qv : list K * gset K) (adjacency : K) : list K * gset K :=
  if decide (adjacency ∈ qv.2) then qv
  else (qv.1 ++ [adjacency], {[adjacency]} ∪ qv.2).

Definition bfsBody (ord : RangeOrder K) (d : directed) (s : walkState) : iteration walkState :=
  match work s with
  | [] => Exit s
  | currentHash :: queue =>
      let currentVertex := default zero (vertices d !! currentHash) in
      let '(stop, st) := visit (closure s) currentVertex in
      if (stop : bool) then
        Exit {| work := queue; visited := visited s; tick := tick s;
                calls := calls s ++ [currentHash]; closure := st |}
      else
        let qv := foldl enqueueNew (queue, visited s)
                    (rangeKeys ord (tick s) (inner (outEdges d) currentHash)) in
        Continue {| work := qv.1; visited := qv.2; tick := S (tick s);
                    calls := calls s ++ [currentHash]; closure := st |}
  end.

(** [visited[startHash] = true; queue = append(queue, startHash)] *)
Definition bfsStart (startHash : K) (st : St) : walkState :=
  {| work := [startHash]; visited := {[startHash]}; tick := 0;
     calls := []; closure := st |}.

Definition BFSByHash (ord : RangeOrder K) (d : directed) (startHash : K) (st : St)
    : option (option error * list K * St) :=
  match vertices d !! startHash with
  | None => Some (Some (ErrStartNotFound startHash), [], st)
  | Some _ =>
      s ← iterate (entryCount (outEdges d) + 2) (bfsBody ord d) (bfsStart startHash st);
      Some (None, calls s, closure s)
  end.

Definition DFS (ord : RangeOrder K) (d : directed) (start : T) (st : St)
    : option (option error * list K * St) :=
  DFSByHash ord d (hash d start) st.

Definition BFS (ord : RangeOrder K) (d : directed) (start : T) (st : St)
    : option (option error * list K * St) :=
  BFSByHash ord d (hash d start) st.

(** The state of the callback after it was called on the vertices
    stored under [hashes], one call after the other. *)
Definition replay (d : directed) (st : St) (hashes : list K) : St :=
  foldl (λ st h, (visit st (default zero (vertices d !! h))).2) st hashes.

(** The callback ran on the recorded calls and on nothing else. *)
Definition replayed (d : directed) (st : St) (s : walkState) : Prop :=
  closure s = replay d st (calls s).

(** The stop signals the callback returns when it is called on the
    vertices stored under [hashes], one call after the other. *)
Fixpoint verdicts (d : directed) (st : St) (hashes : list K) : list bool :=
  match hashes with
  | [] => []
  | h :: hashes' =>
      let r := visit st (default zero (vertices d !! h)) in
      r.1 :: verdicts d r.2 hashes'
  end.

(** A walk from [start] makes its first call on [start]. *)
Definition entered (start : K) (s : walkState) : Prop :=
  (calls s = [] ∧ work s = [start]) ∨ head (calls s) = Some start.

(** What a finished walk from [start] leaves: the calls it made, each on
    another hash reachable from [start] and the first on [start] itself;
    and either the last call asked to stop, or none did and the calls
    cover what is reachable. *)
Definition walked (d : directed) (start : K) (st : St) (tr : list K) : Prop :=
  NoDup tr ∧ head tr = Some start ∧ (∀ x, x ∈ tr → rtc (successor d) start x) ∧
  ((∃ n, verdicts d st tr = replicate n false ++ [true]) ∨
   (verdicts d st tr = replicate (length tr) false ∧
    ∀ x, rtc (successor d) start x → x ∈ tr)).

(** [x] is at distance [n] from [start]: some path of [n] forward edges
    leads from [start] to [x], and no shorter one. *)
Definition distance (d : directed) (start x : K) (n : nat) : Prop :=
  nsteps (successor d) n start x ∧ ∀ m, nsteps (successor d) m start x → n ≤ m.

(** What a breadth-first walk knows about distances at the head of the
    loop: [lev] is the distance of every hash called on or queued; these
    come in the order of their distance, the last at most one further
    than the front of the queue; and every hash nearer than the front of
    the queue has been called on. *)
Record bfsLevels (d : directed) (start : K) (lev : K → nat) (s : walkState) : Prop := {
  lv_distance : ∀ x, x ∈ calls s ++ work s → distance d start x (lev x);
  lv_sorted : StronglySorted (λ x y, lev x ≤ lev y) (calls s ++ work s);
  lv_front : ∀ x q, x ∈ calls s ++ work s → q ∈ work s → lev x ≤ S (lev q);
  lv_nearer : ∀ q rest, work s = q :: rest →
                ∀ z k, nsteps (successor d) k start z → k < lev q → z ∈ calls s
}.

(** A walk that has not been stopped: every call so far returned [false]. *)
Definition unstopped (d : directed) (st : St) (s : walkState) : Prop :=
  replayed d st s ∧ verdicts d st (calls s) = replicate (length (calls s)) false.

(** Every iteration takes one hash off the worklist, so after [n]
    iterations the hashes put on it so far, the start included, are
    the [n] taken off and those still on it. *)
Definition pushed (n : nat) (s : walkState) : nat := n + length (work s).

(** What bounds the pushes of a depth-first walk still to come. *)
Definition dfsMeasure (d : directed) (s : walkState) : nat :=
  length (work s) + pending (outEdges d) (visited s).

(** For a breadth-first walk the entries of the hashes not yet taken
    off the queue are the ones still to be scanned. *)
Definition bfsMeasure (d : directed) (s : walkState) : nat :=
  length (work s) + pending (outEdges d) (list_to_set (calls s)).

(** What a depth-first walk from [start] knows at the head of the loop. *)
Record dfsInv (d : directed) (start : K) (s : walkState) : Prop := {
  dfs_calls : ∀ x, x ∈ calls s ↔ x ∈ visited s;
  dfs_once : NoDup (calls s);
  dfs_reach : ∀ x, x ∈ work s ∨ x ∈ visited s → rtc (successor d) start x;
  dfs_start : start ∈ work s ∨ start ∈ visited s;
  dfs_closed : ∀ v w, v ∈ visited s → successor d v w → w ∈ work s ∨ w ∈ visited s
}.

(** What a breadth-first walk from [start] knows at the head of the loop. *)
Record bfsInv (d : directed) (start : K) (s : walkState) : Prop := {
  bfs_once : NoDup (calls s ++ work s);
  bfs_visited : ∀ x, x ∈ visited s ↔ x ∈ calls s ∨ x ∈ work s;
  bfs_reach : ∀ x, x ∈ visited s → rtc (successor d) start x;
  bfs_start : start ∈ visited s;
  bfs_closed : ∀ v w, v ∈ calls s → successor d v w → w ∈ visited s
}.
End Traversal.

(** [len] of a Go map fits an [int]; the sum of two of them is modelled
    without wrap-around. *)
Definition DegreeByHash (d : directed) (vertexHash : K) : Z * option error :=
  match vertices d !! vertexHash with
  | None => (0%Z, Some (ErrVertexNotFound vertexHash))
  | Some _ =>
      let degree := 0%Z in
      let degree :=
        match inEdges d !! vertexHash with
        | Some inEdges => (degree + Z.of_nat (size inEdges))%Z
        | None => degree
        end in
      let degree :=
        match outEdges d !! vertexHash with
        | Some outEdges => (degree + Z.of_nat (size outEdges))%Z
        | None => degree
        end in
      (degree, None)
  end.

Definition Degree (d : directed) (vertex : T) : Z * option error :=
  DegreeByHash d (hash d vertex).

(** *** Histories of calls

    A graph in use is the result of a sequence of [Vertex] and
    [WeightedEdgeByHashes] calls on a new graph. *)
Inductive call : Type :=
  | CallVertex (value : T)
  | CallEdge (ord : RangeOrder K) (sourceHash targetHash : K) (weight : Z).

Definition perform (d : directed) (c : call) : directed :=
  match c with
  | CallVertex value => Vertex d value
  | CallEdge ord sourceHash targetHash weight =>
      match WeightedEdgeByHashes ord d sourceHash targetHash weight with
      | Some (_, d') => d'
      | None => d
      end
  end.

Definition history (hash : T → K) (properties : properties) (cs : list call) : directed :=
  foldl perform (newDirected hash properties) cs.

(** Some call of the history added the edge from [a] to [b]: it returned
    no error. *)
Definition added (hash : T → K) (properties : properties) (cs : list call) (a b : K) : Prop :=
  ∃ cs1 ord weight cs2,
    cs = cs1 ++ CallEdge ord a b weight :: cs2
    ∧ fst <$> WeightedEdgeByHashes ord (history hash properties cs1) a b weight = Some None.

(** The three indices in lockstep, edges between stored vertices only,
    and no cycle under acyclic enforcement. *)
Record consistent (d : directed) : Prop := {
  out_lockstep : ∀ a b, inner (outEdges d) a !! b = inner (edges d) a !! b;
  in_lockstep : ∀ a b, inner (inEdges d) b !! a = inner (edges d) a !! b;
  endpoints_stored : ∀ a b, is_Some (inner (edges d) a !! b) →
                       is_Some (vertices d !! a) ∧ is_Some (vertices d !! b);
  no_cycle : isAcyclic (props d) = true → ∀ v, ¬ tc (successor d) v v
}.

End Directed.

Arguments Edge T : clear implicits.
Arguments properties : clear implicits.
Arguments directed K {_ _} T.
Arguments error K T : clear implicits.
Arguments call K T : clear implicits.
Arguments walkState K {_ _} St.
Arguments checkState K {_ _}.

(** ** The package-level functions of [graph.go] *)

(** [StringHash] and [IntHash]: the vertex is its own hash. *)
Definition StringHash (v : string) : string := v.
Definition IntHash (v : Z) : Z := v.

Global Instance string_zero : Zero string := EmptyString.

(** The functional options of an edge.  An option is a function on the
    [EdgeProperties] it is handed by pointer.  [Attributes] is [None] for
    the nil map; writing to the nil map panics, and [None] as the result
    of an option stands for that panic.  [D] is the type of the values put
    in [Data]. *)
Module EdgeOptions.
Record EdgeProperties (D : Type) : Type := {
  Attributes : option (gmap string string);
  Weight : Z;
  Data : D
}.
Arguments Attributes {D} _.
Arguments Weight {D} _.
Arguments Data {D} _.

Definition EdgeWeight {D : Type} (weight : Z) (e : EdgeProperties D) : EdgeProperties D :=
  {| Attributes := Attributes e; Weight := weight; Data := Data e |}.

Definition EdgeAttribute {D : Type} (key value : string) (e : EdgeProperties D)
    : option (EdgeProperties D) :=
  match Attributes e with
  | None => None
  | Some attributes =>
      Some {| Attributes := Some (<[key := value]> attributes);
              Weight := Weight e; Data := Data e |}
  end.

Definition EdgeData {D : Type} (data : D) (e : EdgeProperties D) : EdgeProperties D :=
  {| Attributes := Attributes e; Weight := Weight e; Data := data |}.
End EdgeOptions.

(** The functional options of a vertex, in the same way. *)
Module VertexOptions.
Record VertexProperties : Type := {
  Attributes : option (gmap string string);
  Weight : Z
}.

Definition VertexWeight (weight : Z) (e : VertexProperties) : VertexProperties :=
  {| Attributes := Attributes e; Weight := weight |}.

Definition VertexAttribute (key value : string) (e : VertexProperties)
    : option VertexProperties :=
  match Attributes e with
  | None => None
  | Some attributes =>
      Some {| Attributes := Some (<[key := value]> attributes); Weight := Weight e |}
  end.
End VertexOptions.

(** ** Sample graphs

    Vertices are natural numbers hashed by themselves ([IntHash]). *)
Module Sample.
Definition IntHash (v : nat) : nat := v.

Definition acyclic : properties := {| isAcyclic := true |}.
Definition cyclic : properties := {| isAcyclic := false |}.

Definition edge (s t : nat) : call nat nat := CallEdge (canonicalOrder nat) s t 0.

(** Vertices 1, 2, 3 with 1 -> 2 and 2 -> 3, acyclic enforcement on. *)
Definition chain : directed nat nat :=
  history IntHash acyclic
    [CallVertex 1; CallVertex 2; CallVertex 3; edge 1 2; edge 2 3].

(** Vertices 1..4 with 1 -> 2, 1 -> 3, 2 -> 3, 3 -> 1; vertex 4 is isolated. *)
Definition loop : directed nat nat :=
  history IntHash cyclic
    [CallVertex 1; CallVertex 2; CallVertex 3; CallVertex 4;
     edge 1 2; edge 1 3; edge 2 3; edge 3 1].

(** A callback that never stops and counts its calls. *)
Definition countCalls (n : nat) (_ : nat) : bool * nat := (false, S n).

(** Vertices that carry a payload next to the key they are hashed by. *)
Definition keyHash (v : nat * nat) : nat := v.1.

(** A graph holding the vertex with key 1 and payload 10. *)
Definition tagged : directed nat (nat * nat) :=
  Vertex (newDirected keyHash cyclic) (1, 10).

(** The calls that store the vertices 1 and 2. *)
Definition oneEdge : list (call nat nat) := [CallVertex 1; CallVertex 2].

(** The calls that build [chain]. *)
Definition chainCalls : list (call nat nat) :=
  [CallVertex 1; CallVertex 2; CallVertex 3; edge 1 2; edge 2 3].

(** [chain] with the edge 1 -> 3 of weight 7 put in. *)
Definition chainPlus : directed nat nat :=
  addEdge chain 1 3 {| Source := 1; Target := 3; Weight := 7 |}.

(** A callback that counts its calls and stops at the vertex 3. *)
Definition stopAtThree (n : nat) (v : nat) : bool * nat := (bool_decide (v = 3), S n).
End Sample.

(** ** Loops *)
Section Loops.
Context {State : Type} (body : State → iteration State).

(** A loop whose body lowers a measure at each full iteration, under an
    invariant, exits within that many iterations. *)
Lemma iterate_terminates (I : State → Prop) (μ : State → nat) :
  (∀ s s', I s → body s = Continue s' → I s' ∧ μ s' < μ s) →
  ∀ fuel s, I s → μ s < fuel → is_Some (iterate fuel body s).
Proof.
  intros Hstep fuel. induction fuel as [|fuel IH]; intros s HI Hlt; [lia|].
  simpl. destruct (body s) as [s'|s'] eqn:Hb; [|by eexists].
  destruct (Hstep s s' HI Hb) as [HI' Hμ]. apply IH; [done|lia].
Qed.

(** The state a loop exits with comes from a last iteration that started
    in a state satisfying every invariant of the loop. *)
Lemma iterate_exit (I : State → Prop) :
  (∀ s s', I s → body s = Continue s' → I s') →
  ∀ fuel s r, I s → iterate fuel body s = Some r →
  ∃ s0, I s0 ∧ body s0 = Exit r.
Proof.
  intros Hstep fuel. induction fuel as [|fuel IH]; intros s r HI Hrun; [done|].
  simpl in Hrun. destruct (body s) as [s'|s'] eqn:Hb.
  - eapply IH; [|done]. by eapply Hstep.
  - simplify_eq. by exists s.
Qed.

Lemma after_invariant (I : State → Prop) :
  (∀ s s', I s → body s = Continue s' → I s') →
  ∀ n s s', I s → after n body s = Some s' → I s'.
Proof.
  intros Hstep n. induction n as [|n IH]; intros s s' HI Hrun; simpl in Hrun.
  - by simplify_eq.
  - destruct (body s) as [s1|s1] eqn:Hb; [|done].
    eapply IH; [|done]. by eapply Hstep.
Qed.

(** A measure that drops by exactly one per iteration counts the iterations. *)
Lemma after_measure (I : State → Prop) (μ : State → nat) :
  (∀ s s', I s → body s = Continue s' → I s' ∧ S (μ s') ≤ μ s) →
  ∀ n s s', I s → after n body s = Some s' → n + μ s' ≤ μ s.
Proof.
  intros Hstep n. induction n as [|n IH]; intros s s' HI Hrun; simpl in Hrun.
  - simplify_eq. lia.
  - destruct (body s) as [s1|s1] eqn:Hb; [|done].
    destruct (Hstep s s1 HI Hb) as [HI1 Hμ].
    specialize (IH s1 s' HI1 Hrun). lia.
Qed.
(** The result of a loop that exits does not depend on the fuel left over. *)
Lemma iterate_more fuel fuel' s r :
  iterate fuel body s = Some r → fuel ≤ fuel' → iterate fuel' body s = Some r.
Proof.
  revert fuel' s. induction fuel as [|fuel IH]; intros fuel' s Hrun Hle; [done|].
  destruct fuel' as [|fuel']; [lia|]. simpl in *.
  destruct (body s); [|done]. apply IH; [done|lia].
Qed.
End Loops.

Section Facts.
Context {K : Type} `{Countable K}.
Context {T : Type} `{Zero T}.
Implicit Types (d : directed K T) (m : gmap K (gmap K (Edge T))).
Implicit Types (ord : RangeOrder K) (a b : K).

(** *** Keys of a map in iteration order *)

Lemma elem_of_rangeKeys {V} ord n (m : gmap K V) a :
  a ∈ rangeKeys ord n m ↔ is_Some (m !! a).
Proof.
  unfold rangeKeys. rewrite (range_order_perm ord n).
  rewrite list_elem_of_fmap. split.
  - intros [[k v] [-> Hkv]]. apply elem_of_map_to_list in Hkv. by eexists.
  - intros [v Hv]. exists (a, v). split; [done|]. by apply elem_of_map_to_list.
Qed.

Lemma length_rangeKeys {V} ord n (m : gmap K V) :
  length (rangeKeys ord n m) = size m.
Proof.
  unfold rangeKeys. rewrite (range_order_perm ord n).
  by rewrite length_fmap, length_map_to_list.
Qed.

Lemma NoDup_rangeKeys {V} ord n (m : gmap K V) : NoDup (rangeKeys ord n m).
Proof.
  unfold rangeKeys. rewrite (range_order_perm ord n).
  apply NoDup_fst_map_to_list.
Qed.

Lemma inner_empty a : inner (∅ : gmap K (gmap K (Edge T))) a = ∅.
Proof. unfold inner. by rewrite lookup_empty. Qed.

Lemma elem_of_predecessors ord n d a b :
  b ∈ predecessors ord n d a ↔ predecessor d a b.
Proof.
  unfold predecessors, predecessor, linked, inner.
  destruct (inEdges d !! a) as [mi|]; simpl.
  - apply elem_of_rangeKeys.
  - rewrite lookup_empty. split; [by intros ?%elem_of_nil|by intros [? ?]].
Qed.

Lemma length_predecessors ord n d a :
  length (predecessors ord n d a) = size (inner (inEdges d) a).
Proof.
  unfold predecessors, inner. destruct (inEdges d !! a); simpl.
  - apply length_rangeKeys.
  - by rewrite map_size_empty.
Qed.

(** *** Counting the entries of an index *)

Lemma pending_empty m : pending m ∅ = entryCount m.
Proof.
  unfold pending, entryCount. induction (map_to_list m) as [|kv l IH]; [done|].
  simpl. rewrite IH. by rewrite decide_False by set_solver.
Qed.

Lemma pending_absent m seen a :
  m !! a = None → pending m ({[a]} ∪ seen) = pending m seen.
Proof.
  unfold pending. intros Ha.
  assert (Hl : ∀ kv, kv ∈ map_to_list m → kv.1 ≠ a).
  { intros [k v] Hkv%elem_of_map_to_list; simpl; intros ->; congruence. }
  induction (map_to_list m) as [|kv l IH]; [done|]. simpl.
  rewrite IH by (intros; apply Hl; by right).
  assert (kv.1 ≠ a) by (apply Hl; by left).
  f_equal. destruct (decide (kv.1 ∈ seen)); [rewrite decide_True|rewrite decide_False]; set_solver.
Qed.

(** Marking [a] as seen takes its entries off the pending ones. *)
Lemma pending_visit m seen a :
  a ∉ seen → pending m ({[a]} ∪ seen) + size (inner m a) = pending m seen.
Proof.
  intros Ha. unfold inner. destruct (m !! a) as [ma|] eqn:Hma; simpl.
  2:{ rewrite pending_absent by done. rewrite map_size_empty. lia. }
  rewrite <-(insert_delete_id m a ma) by done.
  unfold pending.
  rewrite !(map_to_list_insert (delete a m) a ma) by apply lookup_delete_eq.
  simpl. rewrite decide_True by set_solver. rewrite decide_False by done.
  pose proof (pending_absent (delete a m) seen a (lookup_delete_eq m a)) as Hd.
  unfold pending in Hd. rewrite Hd. lia.
Qed.

(** A set closed under a relation holds everything reachable from its members. *)
Lemma closed_reachable (R : relation K) (X : gset K) a b :
  (∀ v w, v ∈ X → R v w → w ∈ X) → a ∈ X → rtc R a b → b ∈ X.
Proof. intros Hcl Ha Hab. induction Hab; eauto. Qed.

(** *** The loop of the cycle pre-check *)

Lemma checkBody_measure ord d target s s' :
  checkBody ord d target s = Continue s' →
  S (checkMeasure d s') = checkMeasure d s.
Proof.
  unfold checkBody, checkMeasure. destruct s as [[|cur stack] seen n found]; simpl; [done|].
  repeat case_decide; intros; simplify_eq; simpl; [lia|].
  rewrite length_app, length_reverse, length_predecessors.
  pose proof (pending_visit (inEdges d) seen cur ltac:(done)). lia.
Qed.

Lemma checkLoop_terminates ord d source target :
  is_Some (iterate (entryCount (inEdges d) + 2) (checkBody ord d target) (checkStart source)).
Proof.
  apply (iterate_terminates _ (λ _, True) (checkMeasure d)).
  - intros s s' _ Hb. split; [done|]. apply checkBody_measure in Hb. lia.
  - done.
  - unfold checkMeasure, checkStart; simpl. rewrite pending_empty. lia.
Qed.

Lemma checkInv_start d source target : checkInv d source target (checkStart source).
Proof.
  split; simpl.
  - intros x [->%list_elem_of_singleton|?%not_elem_of_empty]; done.
  - apply not_elem_of_empty.
  - left. by apply list_elem_of_singleton.
  - intros v w ?%not_elem_of_empty; done.
  - done.
Qed.

Lemma checkInv_step ord d source target s s' :
  checkInv d source target s →
  checkBody ord d target s = Continue s' →
  checkInv d source target s'.
Proof.
  intros [Hreach Htgt Hsrc Hcl Hrun]. unfold checkBody.
  destruct s as [[|cur stack] seen n found]; simpl in *; [done|].
  repeat case_decide; intros; simplify_eq; split; simpl.
  - intros x [?|?]; apply Hreach; [left; by right|by right].
  - done.
  - destruct Hsrc as [[->|?]%elem_of_cons|?]; auto.
  - intros v w Hv Hvw. destruct (Hcl v w Hv Hvw) as [[->|?]%elem_of_cons|?]; auto.
  - done.
  - intros x [Hx|Hx].
    + apply elem_of_app in Hx as [Hx|Hx].
      * apply elem_of_reverse, elem_of_predecessors in Hx.
        eapply rtc_r; [|done]. apply Hreach. left; by left.
      * apply Hreach. left; by right.
    + apply elem_of_union in Hx as [->%elem_of_singleton|Hx];
        apply Hreach; [left; by left|by right].
  - set_solver.
  - destruct Hsrc as [[->|?]%elem_of_cons|?].
    + right; set_solver.
    + left. apply elem_of_app; by right.
    + right; set_solver.
  - intros v w Hv Hvw. apply elem_of_union in Hv as [->%elem_of_singleton|Hv].
    + left. apply elem_of_app; left.
      by apply elem_of_reverse, elem_of_predecessors.
    + destruct (Hcl v w Hv Hvw) as [[->|?]%elem_of_cons|?].
      * right; set_solver.
      * left. apply elem_of_app; by right.
      * right; set_solver.
  - done.
Qed.

(** The loop ends, and it ends with [true] exactly when the target is
    among the hashes reachable from the source over predecessor entries. *)
Lemma checkLoop_spec ord d source target :
  ∃ r, iterate (entryCount (inEdges d) + 2) (checkBody ord d target) (checkStart source) = Some r
       ∧ (ck_found r = true ↔ rtc (predecessor d) source target).
Proof.
  destruct (checkLoop_terminates ord d source target) as [r Hr].
  exists r. split; [done|].
  destruct (iterate_exit _ (checkInv d source target)
              (checkInv_step ord d source target) _ _ _
              (checkInv_start d source target) Hr) as (s0 & [Hreach Htgt Hsrc Hcl Hrun] & Hexit).
  unfold checkBody in Hexit.
  destruct s0 as [[|cur stack] seen n found]; simpl in *.
  - simplify_eq; simpl. split; [done|]. intros Hpath. exfalso. apply Htgt.
    apply (closed_reachable (predecessor d) seen source target); [|set_solver|done].
    intros v w Hv Hvw. destruct (Hcl v w Hv Hvw) as [?%elem_of_nil|?]; done.
  - repeat case_decide; simplify_eq; simpl. split; [|done].
    intros _. apply Hreach. left; by left.
Qed.

(** *** The cycle pre-check *)

Lemma CreatesCycleByHashes_present ord d source target vs vt :
  vertices d !! source = Some vs → vertices d !! target = Some vt →
  ∃ b : bool, CreatesCycleByHashes ord d source target = Some (b, None, d)
              ∧ (b = true ↔ rtc (predecessor d) source target).
Proof.
  intros Hs Ht. unfold CreatesCycleByHashes. rewrite Hs, Ht.
  case_decide as Heq.
  - exists true. subst. by split.
  - destruct (checkLoop_spec ord d source target) as (r & Hr & Hfound).
    rewrite Hr. simpl. by exists (ck_found r).
Qed.

(** *** Edge insertion *)

Lemma inner_setEdge m a b e a' b' :
  inner (setEdge m a b e) a' !! b'
  = if decide (a = a' ∧ b = b') then Some e else inner m a' !! b'.
Proof.
  unfold setEdge, inner. destruct (decide (a = a')) as [<-|Hne].
  - rewrite lookup_insert_eq. simpl.
    destruct (m !! a) as [ma|] eqn:Hma; simpl.
    + rewrite Hma; simpl. destruct (decide (b = b')) as [<-|?].
      * rewrite lookup_insert_eq. by rewrite decide_True.
      * rewrite lookup_insert_ne by done. rewrite decide_False by naive_solver. done.
    + rewrite lookup_insert_eq; simpl. destruct (decide (b = b')) as [<-|?].
      * rewrite lookup_insert_eq. by rewrite decide_True.
      * rewrite lookup_insert_ne by done. rewrite decide_False by naive_solver. done.
  - rewrite lookup_insert_ne by done. rewrite decide_False by naive_solver.
    destruct (m !! a); [done|]. by rewrite lookup_insert_ne.
Qed.

Lemma GetEdgeByHashes_lookup d a b :
  GetEdgeByHashes d a b
  = match inner (edges d) a !! b with Some e => (e, true) | None => (zeroEdge, false) end.
Proof.
  unfold GetEdgeByHashes, inner. destruct (edges d !! a); simpl; [done|].
  by rewrite lookup_empty.
Qed.

Lemma GetEdgeByHashes_true d a b :
  (GetEdgeByHashes d a b).2 = true ↔ is_Some (inner (edges d) a !! b).
Proof.
  rewrite GetEdgeByHashes_lookup. destruct (inner (edges d) a !! b); simpl.
  - split; [by eexists|done].
  - split; [done|by intros [? ?]].
Qed.

Lemma GetEdgeByHashes_false d a b :
  (GetEdgeByHashes d a b).2 = false ↔ inner (edges d) a !! b = None.
Proof. rewrite GetEdgeByHashes_lookup. by destruct (inner (edges d) a !! b). Qed.

Lemma WeightedEdgeByHashes_outcome ord d source target weight :
  ∃ err d', WeightedEdgeByHashes ord d source target weight = Some (err, d')
            ∧ edgeOutcome ord d source target weight err d'.
Proof.
  unfold WeightedEdgeByHashes.
  destruct (vertices d !! source) as [vs|] eqn:Hs.
  2:{ eexists _, _. split; [done|]. by constructor. }
  destruct (vertices d !! target) as [vt|] eqn:Ht.
  2:{ eexists _, _. split; [done|]. by econstructor. }
  destruct (GetEdgeByHashes d source target).2 eqn:Hdup.
  { eexists _, _. split; [done|]. by econstructor. }
  destruct (isAcyclic (props d)) eqn:Hacyclic.
  2:{ eexists _, _. split; [done|]. econstructor; [done..|congruence]. }
  destruct (CreatesCycleByHashes_present ord d source target vs vt Hs Ht)
    as ([] & Hcheck & _); rewrite Hcheck; simpl.
  - eexists _, _. split; [done|]. by econstructor.
  - eexists _, _. split; [done|]. by econstructor.
Qed.

(** *** Paths and the indices *)

Lemma rtc_converse (R R' : relation K) a b :
  (∀ x y, R x y → R' y x) → rtc R a b → rtc R' b a.
Proof.
  intros Hconv Hab. induction Hab as [|x y z Hxy _ IH]; [done|].
  eapply rtc_r; [done|]. by apply Hconv.
Qed.

(** A path in a relation enlarged by the pair [(s, t)] is a path of the
    relation itself or runs through the new pair. *)
Lemma tc_extended (R R' : relation K) s t a b :
  (∀ x y, R' x y → R x y ∨ (x = s ∧ y = t)) →
  tc R' a b → tc R a b ∨ (rtc R a s ∧ rtc R t b).
Proof.
  intros Hext Hab. induction Hab as [x y Hxy|x y z Hxy _ IH].
  - destruct (Hext _ _ Hxy) as [?|[-> ->]]; [left; by apply tc_once|by right].
  - destruct (Hext _ _ Hxy) as [Hold|[-> ->]], IH as [IH|[IH1 IH2]].
    + left. by eapply tc_l.
    + right. split; [by eapply rtc_l|done].
    + right. split; [done|by apply tc_rtc].
    + by right.
Qed.

Lemma tc_converse (R R' : relation K) a b :
  (∀ x y, R x y → R' y x) → tc R a b → tc R' b a.
Proof.
  intros Hconv Hab. induction Hab as [x y Hxy|x y z Hxy _ IH].
  - by apply tc_once, Hconv.
  - eapply tc_r; [done|]. by apply Hconv.
Qed.

Lemma successor_addEdge d s t e a b :
  successor (addEdge d s t e) a b ↔ successor d a b ∨ (a = s ∧ b = t).
Proof.
  unfold successor, linked; simpl. rewrite inner_setEdge.
  case_decide as Hd.
  - destruct Hd as [<- <-]. split; [by right|by eexists].
  - split; [by left|]. intros [?|[-> ->]]; [done|]. by destruct Hd.
Qed.

Lemma predecessor_successor d a b :
  consistent d → predecessor d a b ↔ successor d b a.
Proof.
  intros Hc. unfold predecessor, successor, linked.
  by rewrite (in_lockstep d Hc), (out_lockstep d Hc).
Qed.

Lemma backward_forward d a b :
  consistent d → rtc (predecessor d) a b ↔ rtc (successor d) b a.
Proof.
  intros Hc. split; apply rtc_converse; intros x y; by apply predecessor_successor.
Qed.

Lemma successor_edge d a b :
  consistent d → successor d a b ↔ (GetEdgeByHashes d a b).2 = true.
Proof.
  intros Hc. rewrite GetEdgeByHashes_true. unfold successor, linked.
  by rewrite (out_lockstep d Hc).
Qed.

Lemma backward_forward_tc d a b :
  consistent d → tc (predecessor d) a b ↔ tc (successor d) b a.
Proof.
  intros Hc. split; apply tc_converse; intros x y; by apply predecessor_successor.
Qed.

(** Under acyclic enforcement an edge whose target already reaches its
    source is turned down by the cycle pre-check. *)
Lemma closing_edge_rejected ord d s t w :
  consistent d → isAcyclic (props d) = true →
  is_Some (vertices d !! s) → is_Some (vertices d !! t) →
  rtc (successor d) t s →
  ∃ e, WeightedEdgeByHashes ord d s t w = Some (Some e, d) ∧ kindOf e = WouldCreateCycle.
Proof.
  intros Hc Hac [vs Hs] [vt Ht] Hpath.
  destruct (WeightedEdgeByHashes_outcome ord d s t w) as (err & d' & -> & Hout).
  destruct Hout as [?|? ? ?|? ? _ _ Hdup|? ? _ _ _ _ _|? ? _ _ _ Hck]; simplify_eq.
  - exfalso. apply (no_cycle d Hc Hac s).
    eapply tc_rtc_r; [|done]. by apply tc_once, successor_edge.
  - by eexists.
  - exfalso.
    destruct (CreatesCycleByHashes_present ord d s t vs vt Hs Ht) as (b & Hb & Hiff).
    rewrite (Hck Hac) in Hb. simplify_eq.
    by apply backward_forward, Hiff in Hpath.
Qed.

(** *** Graphs built by calls *)

Lemma consistent_new (hash : T → K) p : consistent (newDirected hash p).
Proof.
  split; simpl; intros.
  - done.
  - by rewrite !inner_empty, !lookup_empty.
  - rewrite inner_empty, lookup_empty in *. by destruct select (is_Some _).
  - intros Hcyc.
    assert (∃ y, successor (newDirected hash p) v y) as [y [e He]]
      by (inversion Hcyc; eauto).
    simpl in He. by rewrite inner_empty, lookup_empty in He.
Qed.

Lemma consistent_Vertex d value : consistent d → consistent (Vertex d value).
Proof.
  intros [Hout Hin Hend Hcyc]. split; simpl; [done..| |done].
  intros a b Hab. destruct (Hend a b Hab) as [Ha Hb].
  split; rewrite lookup_insert; case_decide; eauto.
Qed.

(** An edge that passed the checks keeps the graph consistent: in
    particular a graph under acyclic enforcement stays free of cycles. *)
Lemma consistent_addEdge ord d s t w vs vt :
  consistent d →
  vertices d !! s = Some vs → vertices d !! t = Some vt →
  (isAcyclic (props d) = true →
     CreatesCycleByHashes ord d s t = Some (false, None, d)) →
  consistent (addEdge d s t {| Source := vs; Target := vt; Weight := w |}).
Proof.
  intros Hc Hs Ht Hcheck. pose proof Hc as [Hout Hin Hend Hcyc].
  split; simpl.
  - intros a b. rewrite !inner_setEdge. case_decide; [done|apply Hout].
  - intros a b. rewrite !inner_setEdge.
    destruct (decide (s = a ∧ t = b)) as [[-> ->]|Hne].
    + by rewrite decide_True.
    + rewrite decide_False by naive_solver. apply Hin.
  - intros a b. rewrite inner_setEdge. case_decide as Hd.
    + destruct Hd as [<- <-]. eauto.
    + apply Hend.
  - intros Hacyclic v Hloop.
    destruct (CreatesCycleByHashes_present ord d s t vs vt Hs Ht) as (b & Hb & Hiff).
    rewrite (Hcheck Hacyclic) in Hb. simplify_eq.
    assert (Hno : ¬ rtc (successor d) t s).
    { intros Hpath%backward_forward; [|done]. apply Hiff in Hpath. done. }
    destruct (tc_extended (successor d) _ s t v v
                (λ x y, proj1 (successor_addEdge d s t _ x y)) Hloop) as [Hold|[Hvs Htv]].
    + by apply (Hcyc Hacyclic v).
    + apply Hno. by etrans.
Qed.

Lemma consistent_perform d c : consistent d → consistent (perform d c).
Proof.
  intros Hc. destruct c as [value|ord s t w]; simpl.
  - by apply consistent_Vertex.
  - destruct (WeightedEdgeByHashes_outcome ord d s t w) as (err & d' & -> & Hout).
    destruct Hout; try done. by eapply consistent_addEdge.
Qed.

Lemma consistent_history (hash : T → K) p cs : consistent (history hash p cs).
Proof.
  unfold history. induction cs as [|c cs IH] using rev_ind; simpl.
  - apply consistent_new.
  - rewrite foldl_app; simpl. by apply consistent_perform.
Qed.

Lemma props_perform d c : props (perform d c) = props d.
Proof.
  destruct c as [value|ord s t w]; simpl; [done|].
  destruct (WeightedEdgeByHashes_outcome ord d s t w) as (err & d' & -> & Hout).
  by destruct Hout.
Qed.

Lemma props_history (hash : T → K) p cs : props (history hash p cs) = p.
Proof.
  unfold history. induction cs as [|c cs IH] using rev_ind; simpl; [done|].
  rewrite foldl_app; simpl. by rewrite props_perform.
Qed.

Lemma history_snoc (hash : T → K) p cs c :
  history hash p (cs ++ [c]) = perform (history hash p cs) c.
Proof. unfold history. by rewrite foldl_app. Qed.

Lemma history_app (hash : T → K) p cs1 cs2 :
  history hash p (cs1 ++ cs2) = foldl perform (history hash p cs1) cs2.
Proof. unfold history. by rewrite foldl_app. Qed.

(** No call removes or replaces a stored edge. *)
Lemma edge_kept d c a b e :
  inner (edges d) a !! b = Some e → inner (edges (perform d c)) a !! b = Some e.
Proof.
  intros He. destruct c as [value|ord s t w]; simpl; [done|].
  destruct (WeightedEdgeByHashes_outcome ord d s t w) as (err & d' & -> & Hout).
  destruct Hout as [| | | |vs vt Hs Ht Hdup _]; try done. simpl.
  rewrite inner_setEdge. rewrite decide_False; [done|].
  intros [-> ->]. apply GetEdgeByHashes_false in Hdup. congruence.
Qed.

Lemma edge_kept_all d cs a b e :
  inner (edges d) a !! b = Some e → inner (edges (foldl perform d cs)) a !! b = Some e.
Proof. revert d. induction cs as [|c cs IH]; intros d He; simpl; [done|]. by apply IH, edge_kept. Qed.

(** A stored edge was put there by a call that added it. *)
Lemma edge_origin (hash : T → K) p cs a b :
  is_Some (inner (edges (history hash p cs)) a !! b) → added hash p cs a b.
Proof.
  induction cs as [|c cs IH] using rev_ind.
  { intros [e He]. unfold history in He; simpl in He.
    by rewrite inner_empty, lookup_empty in He. }
  rewrite history_snoc. intros Hedge.
  assert (Hold : is_Some (inner (edges (history hash p cs)) a !! b) → added hash p (cs ++ [c]) a b).
  { intros (cs1 & ord & w & cs2 & -> & Hok)%IH.
    exists cs1, ord, w, (cs2 ++ [c]). split; [|done]. by rewrite <-app_assoc. }
  destruct c as [value|ord s t w]; simpl in Hedge; [by apply Hold|].
  destruct (WeightedEdgeByHashes_outcome ord (history hash p cs) s t w)
    as (err & d' & Hrun & Hout).
  rewrite Hrun in Hedge.
  destruct Hout; try by apply Hold. simpl in Hedge.
  rewrite inner_setEdge in Hedge. case_decide as Hd; [|by apply Hold].
  destruct Hd as [<- <-]. exists cs, ord, w, []. split; [done|]. by rewrite Hrun.
Qed.

End Facts.

(** ** Traversals *)
Section Walks.
Context {K : Type} `{Countable K}.
Context {T : Type} `{Zero T}.
Context {St : Type} (visit : St → T → bool * St).
Implicit Types (d : directed K T) (ord : RangeOrder K) (s : walkState K St) (st : St).

Lemma successor_rangeKeys ord n d a b :
  b ∈ rangeKeys ord n (inner (outEdges d) a) ↔ successor d a b.
Proof. apply elem_of_rangeKeys. Qed.

(** *** Depth first *)

Lemma dfsBody_measure ord d s s' :
  dfsBody visit ord d s = Continue s' → S (dfsMeasure d s') = dfsMeasure d s.
Proof.
  unfold dfsBody, dfsMeasure. destruct s as [[|cur stack] seen n tr st]; simpl; [done|].
  case_decide.
  - intros; simplify_eq; simpl. lia.
  - destruct (visit st _) as [[] st']; intros; simplify_eq; simpl.
    rewrite length_app, length_reverse, length_rangeKeys.
    pose proof (pending_visit (outEdges d) seen cur ltac:(done)). lia.
Qed.

Lemma dfsLoop_terminates ord d start st :
  is_Some (iterate (entryCount (outEdges d) + 2) (dfsBody visit ord d) (dfsStart start st)).
Proof.
  apply (iterate_terminates _ (λ _, True) (dfsMeasure d)).
  - intros s s' _ Hb. split; [done|]. apply dfsBody_measure in Hb. lia.
  - done.
  - unfold dfsMeasure, dfsStart; simpl. rewrite pending_empty. lia.
Qed.

Lemma dfsInv_start d start st : dfsInv d start (dfsStart start st).
Proof.
  split; simpl.
  - intros x. split; [by intros ?%elem_of_nil|by intros ?%not_elem_of_empty].
  - apply NoDup_nil_2.
  - intros x [->%list_elem_of_singleton|?%not_elem_of_empty]; done.
  - left. by apply list_elem_of_singleton.
  - intros v w ?%not_elem_of_empty; done.
Qed.

Lemma dfsInv_step ord d start s s' :
  dfsInv d start s → dfsBody visit ord d s = Continue s' → dfsInv d start s'.
Proof.
  intros [Hcalls Honce Hreach Hstart Hcl]. unfold dfsBody.
  destruct s as [[|cur stack] seen n tr st]; simpl in *; [done|].
  case_decide as Hseen.
  - intros; simplify_eq; split; simpl; [done..| | |].
    + intros x [?|?]; apply Hreach; [left; by right|by right].
    + destruct Hstart as [[->|?]%elem_of_cons|?]; auto.
    + intros v w Hv Hvw. destruct (Hcl v w Hv Hvw) as [[->|?]%elem_of_cons|?]; auto.
  - destruct (visit st _) as [[] st']; intros; simplify_eq; split; simpl.
    + intros x. rewrite elem_of_app, list_elem_of_singleton, Hcalls. set_solver.
    + apply NoDup_app. split; [done|]. split; [|apply NoDup_singleton].
      intros x Hx ->%list_elem_of_singleton. by apply Hseen, Hcalls.
    + intros x [Hx|Hx].
      * apply elem_of_app in Hx as [Hx|Hx].
        -- apply elem_of_reverse, successor_rangeKeys in Hx.
           eapply rtc_r; [|done]. apply Hreach. left; by left.
        -- apply Hreach. left; by right.
      * apply elem_of_union in Hx as [->%elem_of_singleton|Hx];
          apply Hreach; [left; by left|by right].
    + destruct Hstart as [[->|?]%elem_of_cons|?].
      * right; set_solver.
      * left. apply elem_of_app; by right.
      * right; set_solver.
    + intros v w Hv Hvw. apply elem_of_union in Hv as [->%elem_of_singleton|Hv].
      * left. apply elem_of_app; left.
        by apply elem_of_reverse, successor_rangeKeys.
      * destruct (Hcl v w Hv Hvw) as [[->|?]%elem_of_cons|?].
        -- right; set_solver.
        -- left. apply elem_of_app; by right.
        -- right; set_solver.
Qed.

(** With a callback that never stops, the walk calls it once on each
    hash reachable from the start and on nothing else. *)
Lemma dfsLoop_spec ord d start st :
  (∀ st v, (visit st v).1 = false) →
  ∃ r, iterate (entryCount (outEdges d) + 2) (dfsBody visit ord d) (dfsStart start st) = Some r
       ∧ NoDup (calls r)
       ∧ ∀ x, x ∈ calls r ↔ rtc (successor d) start x.
Proof.
  intros Hgo. destruct (dfsLoop_terminates ord d start st) as [r Hr].
  exists r. split; [done|].
  destruct (iterate_exit _ (dfsInv d start) (dfsInv_step ord d start) _ _ _
              (dfsInv_start d start st) Hr)
    as (s0 & [Hcalls Honce Hreach Hstart Hcl] & Hexit).
  unfold dfsBody in Hexit.
  destruct s0 as [[|cur stack] seen n tr st0]; simpl in *.
  - simplify_eq; simpl. split; [done|]. intros x. rewrite Hcalls. split.
    + intros Hx. apply Hreach. by right.
    + apply closed_reachable.
      * intros v w Hv Hvw. destruct (Hcl v w Hv Hvw) as [?%elem_of_nil|?]; done.
      * destruct Hstart as [?%elem_of_nil|?]; done.
  - case_decide; [done|].
    pose proof (Hgo st0 (default zero (vertices d !! cur))) as Hv.
    destruct (visit st0 _) as [[] st']; simplify_eq.
Qed.

(** *** Breadth first *)

(** The inner loop appends to the queue the neighbours not yet visited,
    each of them once, and marks them. *)
Lemma enqueueNew_fold (keys queue : list K) (seen : gset K) :
  ∃ news, foldl enqueueNew (queue, seen) keys = (queue ++ news, list_to_set news ∪ seen)
          ∧ NoDup news
          ∧ (∀ x, x ∈ news ↔ x ∈ keys ∧ x ∉ seen)
          ∧ length news ≤ length keys.
Proof.
  revert queue seen. induction keys as [|k keys IH]; intros queue seen; simpl.
  { exists []. rewrite app_nil_r. split_and!.
    - f_equal. set_solver.
    - apply NoDup_nil_2.
    - intros x. split; [by intros ?%elem_of_nil|by intros [?%elem_of_nil _]].
    - done. }
  unfold enqueueNew at 2; simpl. case_decide as Hk.
  - destruct (IH queue seen) as (news & -> & Hnd & Hin & Hlen).
    exists news. split_and!; [done..| |lia].
    intros x. rewrite Hin, elem_of_cons. naive_solver.
  - destruct (IH (queue ++ [k]) ({[k]} ∪ seen)) as (news & -> & Hnd & Hin & Hlen).
    exists (k :: news). split_and!.
    + rewrite <-app_assoc. simpl. f_equal. set_solver.
    + apply NoDup_cons. split; [|done]. rewrite Hin. set_solver.
    + intros x. rewrite !elem_of_cons, Hin.
      destruct (decide (x = k)) as [->|?]; set_solver.
    + simpl. lia.
Qed.

Lemma bfsInv_start d start st : bfsInv d start (bfsStart start st).
Proof.
  split; simpl.
  - apply NoDup_singleton.
  - intros x. rewrite elem_of_singleton, list_elem_of_singleton, elem_of_nil. naive_solver.
  - by intros x ->%elem_of_singleton.
  - by apply elem_of_singleton.
  - intros v w ?%elem_of_nil; done.
Qed.

Lemma bfsInv_step ord d start s s' :
  bfsInv d start s → bfsBody visit ord d s = Continue s' → bfsInv d start s'.
Proof.
  intros [Honce Hvis Hreach Hstart Hcl]. unfold bfsBody.
  destruct s as [[|cur queue] seen n tr st]; simpl in *; [done|].
  destruct (visit st _) as [[] st']; [done|].
  destruct (enqueueNew_fold (rangeKeys ord n (inner (outEdges d) cur)) queue seen)
    as (news & -> & Hnd & Hin & _).
  intros; simplify_eq; simpl.
  assert (Hnew : ∀ x, x ∈ news ↔ successor d cur x ∧ x ∉ seen).
  { intros x. by rewrite Hin, successor_rangeKeys. }
  apply NoDup_app in Honce as (Htr & Hdisj & [Hcur Hq]%NoDup_cons).
  split; simpl.
  - rewrite <-app_assoc. apply NoDup_app. split; [done|]. split.
    + intros x Hx. rewrite elem_of_app, elem_of_app, list_elem_of_singleton, Hnew.
      specialize (Hdisj x Hx). rewrite elem_of_cons in Hdisj.
      rewrite Hvis, elem_of_cons. naive_solver.
    + simpl. apply NoDup_cons. split.
      * rewrite elem_of_app, Hnew, Hvis, elem_of_cons. naive_solver.
      * apply NoDup_app. split; [done|]. split; [|done].
        intros x Hx. rewrite Hnew, Hvis, elem_of_cons. naive_solver.
  - intros x. rewrite elem_of_union, elem_of_list_to_set, Hnew, !elem_of_app,
      list_elem_of_singleton, Hnew, Hvis, elem_of_cons.
    destruct (decide (x ∈ seen)) as [Hx|Hx]; [|naive_solver].
    apply Hvis in Hx. rewrite elem_of_cons in Hx. naive_solver.
  - intros x. rewrite elem_of_union, elem_of_list_to_set, Hnew.
    intros [[Hx _]|Hx]; [|by apply Hreach].
    eapply rtc_r; [|done]. apply Hreach, Hvis. right; by left.
  - set_solver.
  - intros v w. rewrite elem_of_app, list_elem_of_singleton, elem_of_union,
      elem_of_list_to_set, Hnew.
    intros [Hv| ->] Hvw; [right; by eapply Hcl|].
    destruct (decide (w ∈ seen)); auto.
Qed.

Lemma bfsBody_measure ord d start s s' :
  bfsInv d start s → bfsBody visit ord d s = Continue s' →
  S (bfsMeasure d s') ≤ bfsMeasure d s.
Proof.
  intros [Honce _ _ _ _]. unfold bfsBody, bfsMeasure.
  destruct s as [[|cur queue] seen n tr st]; simpl in *; [done|].
  destruct (visit st _) as [[] st']; [done|].
  destruct (enqueueNew_fold (rangeKeys ord n (inner (outEdges d) cur)) queue seen)
    as (news & -> & _ & _ & Hlen).
  intros; simplify_eq; simpl.
  rewrite length_rangeKeys in Hlen. rewrite length_app.
  apply NoDup_app in Honce as (_ & Hdisj & _).
  assert (Hcur : cur ∉ (list_to_set tr : gset K)).
  { rewrite elem_of_list_to_set. intros Hx. apply (Hdisj cur Hx). by left. }
  replace (list_to_set (tr ++ [cur]) : gset K) with ({[cur]} ∪ list_to_set tr : gset K)
    by set_solver.
  pose proof (pending_visit (outEdges d) _ cur Hcur). lia.
Qed.

Lemma bfsLoop_terminates ord d start st :
  is_Some (iterate (entryCount (outEdges d) + 2) (bfsBody visit ord d) (bfsStart start st)).
Proof.
  apply (iterate_terminates _ (bfsInv d start) (bfsMeasure d)).
  - intros s s' Hinv Hb. split; [by eapply bfsInv_step|].
    pose proof (bfsBody_measure ord d start s s' Hinv Hb). lia.
  - apply bfsInv_start.
  - unfold bfsMeasure, bfsStart; simpl. rewrite pending_empty. lia.
Qed.

Lemma bfsLoop_spec ord d start st :
  (∀ st v, (visit st v).1 = false) →
  ∃ r, iterate (entryCount (outEdges d) + 2) (bfsBody visit ord d) (bfsStart start st) = Some r
       ∧ NoDup (calls r)
       ∧ ∀ x, x ∈ calls r ↔ rtc (successor d) start x.
Proof.
  intros Hgo. destruct (bfsLoop_terminates ord d start st) as [r Hr].
  exists r. split; [done|].
  destruct (iterate_exit _ (bfsInv d start) (bfsInv_step ord d start) _ _ _
              (bfsInv_start d start st) Hr)
    as (s0 & [Honce Hvis Hreach Hstart Hcl] & Hexit).
  unfold bfsBody in Hexit.
  destruct s0 as [[|cur queue] seen n tr st0]; simpl in *.
  - simplify_eq; simpl. rewrite app_nil_r in Honce. split; [done|].
    assert (Hseen : ∀ x, x ∈ tr ↔ x ∈ seen).
    { intros x. rewrite Hvis, elem_of_nil. naive_solver. }
    intros x. rewrite Hseen. split; [apply Hreach|].
    apply closed_reachable; [|done].
    intros v w Hv Hvw. eapply Hcl; [|done]. by apply Hseen.
  - pose proof (Hgo st0 (default zero (vertices d !! cur))) as Hv.
    destruct (visit st0 _) as [[] st']; simplify_eq.
Qed.

(** *** The callback and the recorded calls *)

Lemma replay_snoc d st tr h :
  replay visit d st (tr ++ [h])
  = (visit (replay visit d st tr) (default zero (vertices d !! h))).2.
Proof. unfold replay. by rewrite foldl_app. Qed.

Lemma dfsBody_replayed ord d st s s' :
  replayed visit d st s →
  dfsBody visit ord d s = Continue s' ∨ dfsBody visit ord d s = Exit s' →
  replayed visit d st s'.
Proof.
  unfold replayed, dfsBody. destruct s as [[|cur stack] seen n tr st0]; simpl.
  { intros -> [?|?]; by simplify_eq. }
  intros ->. case_decide; [intros [?|?]; by simplify_eq|].
  rewrite (surjective_pairing (visit _ _)).
  destruct (visit _ _).1; intros [?|?]; simplify_eq; simpl; by rewrite replay_snoc.
Qed.

Lemma bfsBody_replayed ord d st s s' :
  replayed visit d st s →
  bfsBody visit ord d s = Continue s' ∨ bfsBody visit ord d s = Exit s' →
  replayed visit d st s'.
Proof.
  unfold replayed, bfsBody. destruct s as [[|cur stack] seen n tr st0]; simpl.
  { intros -> [?|?]; by simplify_eq. }
  intros ->. rewrite (surjective_pairing (visit _ _)).
  destruct (visit _ _).1; intros [?|?]; simplify_eq; simpl; by rewrite replay_snoc.
Qed.

Lemma dfs_replayed ord d start st fuel r :
  iterate fuel (dfsBody visit ord d) (dfsStart start st) = Some r →
  replayed visit d st r.
Proof.
  intros Hr.
  destruct (iterate_exit (dfsBody visit ord d) (replayed visit d st)
              (λ s s' Hs Hb, dfsBody_replayed ord d st s s' Hs (or_introl Hb))
              fuel (dfsStart start st) r eq_refl Hr) as (s0 & Hs0 & Hexit).
  eapply dfsBody_replayed; eauto.
Qed.

Lemma bfs_replayed ord d start st fuel r :
  iterate fuel (bfsBody visit ord d) (bfsStart start st) = Some r →
  replayed visit d st r.
Proof.
  intros Hr.
  destruct (iterate_exit (bfsBody visit ord d) (replayed visit d st)
              (λ s s' Hs Hb, bfsBody_replayed ord d st s s' Hs (or_introl Hb))
              fuel (bfsStart start st) r eq_refl Hr) as (s0 & Hs0 & Hexit).
  eapply bfsBody_replayed; eauto.
Qed.

End Walks.

(** ** Properties of the engine *)
Section Engine.
Context {K : Type} `{Countable K}.
Context {T : Type} `{Zero T}.
Implicit Types (d : directed K T) (ord : RangeOrder K).

(** C2: [WeightedEdgeByHashes] always returns.  It fails with a not-found
    error when an endpoint is not stored; with both stored, it fails with
    an already-exists error when [GetEdgeByHashes] finds the ordered
    pair; otherwise, under acyclic enforcement, it fails with a
    would-create-cycle error when the pre-check reports a cycle; in every
    other case it returns no error and the new edge is in the forward
    index under (source, target) and in the reverse index under
    (target, source).  On a consistent graph, which every graph built by
    calls is, a stored pair and a cycle reported by the pre-check are
    each enough for their error, whatever the earlier tests. *)
Theorem WeightedEdgeByHashes_results ord d (s t : K) (w : Z) :
  ∃ err d', WeightedEdgeByHashes ord d s t w = Some (err, d') ∧
    ((vertices d !! s = None ∨ vertices d !! t = None) →
       ∃ e, err = Some e ∧ kindOf e = NotFound) ∧
    (∀ vs vt, vertices d !! s = Some vs → vertices d !! t = Some vt →
       ((GetEdgeByHashes d s t).2 = true →
          ∃ e, err = Some e ∧ kindOf e = AlreadyExists) ∧
       ((GetEdgeByHashes d s t).2 = false →
          (isAcyclic (props d) = true ∧
           CreatesCycleByHashes ord d s t = Some (true, None, d) →
             ∃ e, err = Some e ∧ kindOf e = WouldCreateCycle) ∧
          (¬ (isAcyclic (props d) = true ∧
              CreatesCycleByHashes ord d s t = Some (true, None, d)) →
             err = None ∧
             inner (outEdges d') s !! t = Some {| Source := vs; Target := vt; Weight := w |} ∧
             inner (inEdges d') t !! s = Some {| Source := vs; Target := vt; Weight := w |}))) ∧
    (consistent d →
       ((GetEdgeByHashes d s t).2 = true →
          ∃ e, err = Some e ∧ kindOf e = AlreadyExists) ∧
       (isAcyclic (props d) = true →
        CreatesCycleByHashes ord d s t = Some (true, None, d) →
          ∃ e, err = Some e ∧ kindOf e = WouldCreateCycle)).
Proof.
  destruct (WeightedEdgeByHashes_outcome ord d s t w) as (err & d' & Hrun & Hout).
  exists err, d'. split; [done|]. split_and!.
  - intros Habsent.
    destruct Hout; [by eexists|by eexists|destruct Habsent; congruence..].
  - intros vs vt Hs Ht.
    destruct Hout as [Hs'|vs' Hs' Ht'|vs' vt' Hs' Ht' Hdup|vs' vt' Hs' Ht' Hdup Hac Hck
                      |vs' vt' Hs' Ht' Hdup Hck]; try congruence.
    + split; [by eexists|]. intros; congruence.
    + split; [intros; congruence|].
      intros _. split; [by eexists|]. intros []; by split.
    + simplify_eq. split; [intros; congruence|].
      intros _. split.
      * intros [Hac Htrue]. rewrite (Hck Hac) in Htrue. done.
      * intros _. split; [done|]. simpl. rewrite !inner_setEdge.
        by rewrite !decide_True.
  - intros Hc. split.
    + intros Hedge. pose proof Hedge as Hin. apply GetEdgeByHashes_true in Hin.
      destruct (endpoints_stored d Hc s t Hin) as [[vs Hs] [vt Ht]].
      destruct Hout; try congruence. by eexists.
    + intros Hac Hck.
      destruct (vertices d !! s) as [vs|] eqn:Hs.
      2:{ unfold CreatesCycleByHashes in Hck. rewrite Hs in Hck. done. }
      destruct (vertices d !! t) as [vt|] eqn:Ht.
      2:{ unfold CreatesCycleByHashes in Hck. rewrite Hs, Ht in Hck. done. }
      destruct (CreatesCycleByHashes_present ord d s t vs vt Hs Ht) as (b & Hb & Hiff).
      rewrite Hck in Hb. simplify_eq.
      destruct (closing_edge_rejected ord d s t w Hc Hac) as (e & He & Hkind); [by eexists..| |].
      * apply backward_forward; [done|]. by apply Hiff.
      * rewrite He in Hrun. simplify_eq. by eexists.
Qed.

(** C3: whenever [WeightedEdgeByHashes] returns an error, the graph it
    leaves is the graph it was called on: the vertices, the edges and
    both indices are the same. *)
Theorem WeightedEdgeByHashes_failure_keeps_graph ord d (s t : K) (w : Z) :
  ∃ err d', WeightedEdgeByHashes ord d s t w = Some (err, d') ∧
    (is_Some err →
       d' = d ∧ vertices d' = vertices d ∧ edges d' = edges d ∧
       outEdges d' = outEdges d ∧ inEdges d' = inEdges d).
Proof.
  destruct (WeightedEdgeByHashes_outcome ord d s t w) as (err & d' & Hrun & Hout).
  exists err, d'. split; [done|].
  destruct Hout; try done.
Qed.

(** C7: for a stored hash [DegreeByHash] returns the number of entries
    of the reverse index under the hash plus the number of entries of
    the forward index under it; for a hash that is not stored it fails
    with a not-found error. *)
Theorem DegreeByHash_spec d (h : K) :
  (is_Some (vertices d !! h) →
     DegreeByHash d h
     = ((Z.of_nat (size (inner (inEdges d) h)) + Z.of_nat (size (inner (outEdges d) h)))%Z,
        None)) ∧
  (vertices d !! h = None →
     ∃ e, (DegreeByHash d h).2 = Some e ∧ kindOf e = NotFound).
Proof.
  unfold DegreeByHash, inner. split.
  - intros [v ->].
    destruct (inEdges d !! h), (outEdges d !! h); simpl;
      rewrite ?map_size_empty; f_equal; lia.
  - intros ->. by eexists.
Qed.

(** C8: when the source or the target hash is not stored,
    [CreatesCycleByHashes] returns an error, of the not-found kind,
    next to the verdict [false], and the graph is as before. *)
Theorem CreatesCycleByHashes_absent ord d (s t : K) :
  vertices d !! s = None ∨ vertices d !! t = None →
  ∃ e, CreatesCycleByHashes ord d s t = Some (false, Some e, d) ∧ kindOf e = NotFound.
Proof.
  unfold CreatesCycleByHashes. intros [Hs|Ht].
  - rewrite Hs. by eexists.
  - destruct (vertices d !! s); rewrite ?Ht; by eexists.
Qed.

(** C4: with both endpoints stored, [CreatesCycleByHashes] returns the
    verdict [true] exactly when the source is the target or the target
    is reachable from the source over predecessor entries.  On a
    consistent graph, which every graph built by calls is, that is the
    same as a path of edges from the target to the source, and under
    acyclic enforcement adding a self-loop or the reverse of a stored
    edge fails with a would-create-cycle error, while adding an edge not
    yet stored whose target does not reach its source succeeds. *)
Theorem CreatesCycleByHashes_spec ord d (s t : K) :
  is_Some (vertices d !! s) → is_Some (vertices d !! t) →
  (∃ b : bool, CreatesCycleByHashes ord d s t = Some (b, None, d)
               ∧ (b = true ↔ s = t ∨ tc (predecessor d) s t)) ∧
  (consistent d → (tc (predecessor d) s t ↔ tc (successor d) t s)) ∧
  (consistent d → isAcyclic (props d) = true → ∀ w : Z,
     (∃ e, WeightedEdgeByHashes ord d s s w = Some (Some e, d)
           ∧ kindOf e = WouldCreateCycle) ∧
     ((GetEdgeByHashes d s t).2 = true →
        ∃ e, WeightedEdgeByHashes ord d t s w = Some (Some e, d)
             ∧ kindOf e = WouldCreateCycle) ∧
     ((GetEdgeByHashes d s t).2 = false → ¬ (s = t ∨ tc (successor d) t s) →
        ∃ d', WeightedEdgeByHashes ord d s t w = Some (None, d')
              ∧ (GetEdgeByHashes d' s t).2 = true)).
Proof.
  intros [vs Hs] [vt Ht]. split_and!.
  - destruct (CreatesCycleByHashes_present ord d s t vs vt Hs Ht) as (b & Hb & Hiff).
    exists b. split; [done|]. by rewrite Hiff, rtc_tc.
  - apply backward_forward_tc.
  - intros Hc Hac w. split_and!.
    + by apply closing_edge_rejected.
    + intros Hedge. apply closing_edge_rejected; [done..|].
      by apply rtc_once, successor_edge.
    + intros Hdup Hfar.
      destruct (WeightedEdgeByHashes_outcome ord d s t w) as (err & d' & -> & Hout).
      destruct Hout as [?|? ? ?|? ? _ _ ?|? ? _ _ _ _ Hck|? ? _ _ _ _]; try congruence.
      * exfalso. apply Hfar.
        destruct (CreatesCycleByHashes_present ord d s t vs vt Hs Ht) as (b & Hb & Hiff).
        rewrite Hck in Hb. simplify_eq.
        destruct Hiff as [Hiff _]. specialize (Hiff eq_refl).
        apply backward_forward, rtc_tc in Hiff; naive_solver.
      * eexists. split; [done|]. apply GetEdgeByHashes_true. simpl.
        rewrite inner_setEdge. rewrite decide_True; by eauto.
Qed.

(** C10: in the graph a history of calls builds, when one of the calls
    added the edge (s, t) and none added (t, s), [GetEdgeByHashes] on
    (t, s) reports no edge, and on (s, t) it returns the edge that call
    stored: the source and target vertices as they were then, and its
    weight. *)
Theorem GetEdgeByHashes_oriented (hash : T → K) p cs1 ord (s t : K) (w : Z) cs2 :
  s ≠ t →
  fst <$> WeightedEdgeByHashes ord (history hash p cs1) s t w = Some None →
  ¬ added hash p (cs1 ++ CallEdge ord s t w :: cs2) t s →
  GetEdgeByHashes (history hash p (cs1 ++ CallEdge ord s t w :: cs2)) t s = (zeroEdge, false)
  ∧ ∃ vs vt,
      vertices (history hash p cs1) !! s = Some vs
      ∧ vertices (history hash p cs1) !! t = Some vt
      ∧ GetEdgeByHashes (history hash p (cs1 ++ CallEdge ord s t w :: cs2)) s t
        = ({| Source := vs; Target := vt; Weight := w |}, true).
Proof.
  intros _ Hok Hnone. split.
  - rewrite GetEdgeByHashes_lookup.
    destruct (inner (edges _) t !! s) as [e|] eqn:He; [|done].
    destruct Hnone. apply edge_origin. by eexists.
  - destruct (WeightedEdgeByHashes_outcome ord (history hash p cs1) s t w)
      as (err & d' & Hrun & Hout).
    rewrite Hrun in Hok. simplify_eq/=.
    inversion Hout as [| | | |vs vt Hs Ht Hdup Hck]; subst.
    exists vs, vt. split_and!; [done..|].
    rewrite GetEdgeByHashes_lookup, history_app. simpl. rewrite Hrun.
    erewrite edge_kept_all; [done|]. simpl.
    rewrite inner_setEdge. by rewrite decide_True.
Qed.

End Engine.

Section Traversals.
Context {K : Type} `{Countable K}.
Context {T : Type} `{Zero T}.
Context {St : Type} (visit : St → T → bool * St).
Implicit Types (d : directed K T) (ord : RangeOrder K) (st : St).

(** C5: from a stored start, with a callback that never asks to stop,
    [DFSByHash] and [BFSByHash] return without error after calling the
    callback once on each vertex reachable from the start over forward
    edges, and on no other vertex; the callback ends in the state these
    calls leave it in. *)
Theorem traversals_visit_reachable ord d (start : K) st :
  (∀ st v, (visit st v).1 = false) →
  is_Some (vertices d !! start) →
  (∃ tr, DFSByHash visit ord d start st = Some (None, tr, replay visit d st tr)
         ∧ NoDup tr ∧ ∀ x, x ∈ tr ↔ rtc (successor d) start x) ∧
  (∃ tr, BFSByHash visit ord d start st = Some (None, tr, replay visit d st tr)
         ∧ NoDup tr ∧ ∀ x, x ∈ tr ↔ rtc (successor d) start x).
Proof.
  intros Hgo [v Hv]. unfold DFSByHash, BFSByHash. rewrite Hv. split.
  - destruct (dfsLoop_spec visit ord d start st Hgo) as (r & Hr & Hnd & Hin).
    exists (calls r). rewrite Hr; simpl.
    by rewrite (dfs_replayed visit ord d start st _ r Hr).
  - destruct (bfsLoop_spec visit ord d start st Hgo) as (r & Hr & Hnd & Hin).
    exists (calls r). rewrite Hr; simpl.
    by rewrite (bfs_replayed visit ord d start st _ r Hr).
Qed.

(** C6: from a hash that is not stored, [DFSByHash] and [BFSByHash] fail
    with a not-found error without calling the callback: no call is
    recorded and the state of the callback is the one passed in. *)
Theorem traversals_start_absent ord d (h : K) st :
  vertices d !! h = None →
  (∃ e, DFSByHash visit ord d h st = Some (Some e, [], st) ∧ kindOf e = NotFound) ∧
  (∃ e, BFSByHash visit ord d h st = Some (Some e, [], st) ∧ kindOf e = NotFound).
Proof.
  intros Hh. unfold DFSByHash, BFSByHash. rewrite Hh. split; by eexists.
Qed.

(** C9: for every callback [DFSByHash] and [BFSByHash] return.  After
    any number of iterations the hashes put on the worklist, the start
    included, are at most the entries of the forward index plus one.  An
    iteration of the depth-first loop takes a visited hash off the stack
    or marks the hash it took off as visited; an iteration of the
    breadth-first loop takes a visited hash off the queue. *)
Theorem traversals_terminate ord d (start : K) st :
  is_Some (DFSByHash visit ord d start st) ∧
  is_Some (BFSByHash visit ord d start st) ∧
  (∀ n s, after n (dfsBody visit ord d) (dfsStart start st) = Some s →
     pushed n s ≤ entryCount (outEdges d) + 1) ∧
  (∀ n s, after n (bfsBody visit ord d) (bfsStart start st) = Some s →
     pushed n s ≤ entryCount (outEdges d) + 1) ∧
  (∀ s s', dfsBody visit ord d s = Continue s' →
     ∃ cur rest, work s = cur :: rest ∧
       ((cur ∈ visited s ∧ work s' = rest ∧ visited s' = visited s) ∨
        ((cur ∉ visited s) ∧ visited s' = {[cur]} ∪ visited s))) ∧
  (∀ n s s', after n (bfsBody visit ord d) (bfsStart start st) = Some s →
     bfsBody visit ord d s = Continue s' →
     ∃ cur rest news, work s = cur :: rest ∧ cur ∈ visited s ∧ work s' = rest ++ news).
Proof.
  split_and!.
  - unfold DFSByHash. destruct (vertices d !! start); [|by eexists].
    destruct (dfsLoop_terminates visit ord d start st) as [r ->]. by eexists.
  - unfold BFSByHash. destruct (vertices d !! start); [|by eexists].
    destruct (bfsLoop_terminates visit ord d start st) as [r ->]. by eexists.
  - intros n s Hn.
    pose proof (after_measure (dfsBody visit ord d) (λ _, True) (dfsMeasure d)) as Hm.
    specialize (Hm (λ s s' _ Hb, conj I (eq_ind_r (λ m, S (dfsMeasure d s') ≤ m)
                      (le_n _) (eq_sym (dfsBody_measure visit ord d s s' Hb))))).
    specialize (Hm n _ s I Hn).
    unfold pushed, dfsMeasure, dfsStart in *; simpl in *.
    rewrite pending_empty in Hm. lia.
  - intros n s Hn.
    pose proof (after_measure (bfsBody visit ord d) (bfsInv d start) (bfsMeasure d)) as Hm.
    specialize (Hm (λ s s' Hi Hb, conj (bfsInv_step visit ord d start s s' Hi Hb)
                      (bfsBody_measure visit ord d start s s' Hi Hb))).
    specialize (Hm n _ s (bfsInv_start visit d start st) Hn).
    unfold pushed, bfsMeasure, bfsStart in *; simpl in *.
    rewrite pending_empty in Hm. lia.
  - intros s s'. unfold dfsBody.
    destruct s as [[|cur stack] seen n tr st0]; simpl; [done|].
    intros Hb. exists cur, stack. split; [done|].
    case_decide; [left; by simplify_eq|right].
    destruct (visit st0 _) as [[] st']; by simplify_eq.
  - intros n s s' Hn Hb.
    pose proof (after_invariant (bfsBody visit ord d) (bfsInv d start)
                  (bfsInv_step visit ord d start) n _ s (bfsInv_start visit d start st) Hn)
      as [_ Hvis _ _ _].
    revert Hb. unfold bfsBody.
    destruct s as [[|cur queue] seen k tr st0]; simpl in *; [done|].
    destruct (visit st0 _) as [[] st']; [done|].
    destruct (enqueueNew_fold (rangeKeys ord k (inner (outEdges d) cur)) queue seen)
      as (news & -> & _).
    intros; simplify_eq; simpl. exists cur, queue, news.
    split_and!; [done| |done]. apply Hvis. right; by left.
Qed.

End Traversals.

(** ** The engine on the sample graphs *)

(** The scenario of three vertices under acyclic enforcement: after 1 -> 2
    and 2 -> 3 the edge 3 -> 1 is refused, and vertex 2 has degree 2. *)
Example chain_closing_edge :
  WeightedEdgeByHashes (canonicalOrder nat) Sample.chain 3 1 0
  = Some (Some (ErrIntroducesCycle 3 1), Sample.chain).
Proof. vm_compute. reflexivity. Qed.

Example chain_self_loop :
  fst <$> WeightedEdgeByHashes (canonicalOrder nat) Sample.chain 2 2 0
  = Some (Some (ErrIntroducesCycle 2 2)).
Proof. vm_compute. reflexivity. Qed.

Example chain_forward_edge :
  fst <$> WeightedEdgeByHashes (reversedOrder nat) Sample.chain 1 3 0 = Some None.
Proof. vm_compute. reflexivity. Qed.

Example chain_degree : DegreeByHash Sample.chain 2 = (2%Z, None).
Proof. vm_compute. reflexivity. Qed.

Example chain_missing_endpoint :
  fst <$> WeightedEdgeByHashes (canonicalOrder nat) Sample.chain 1 7 0
  = Some (Some (ErrTargetNotFound 7)).
Proof. vm_compute. reflexivity. Qed.

Example chain_duplicate_edge :
  fst <$> WeightedEdgeByHashes (canonicalOrder nat) Sample.chain 1 2 4
  = Some (Some (ErrEdgeExists 1 2)).
Proof. vm_compute. reflexivity. Qed.

(** Both walks of the sample with a cycle call the callback on 1, 2 and 3,
    once each, and never on the isolated vertex 4. *)
Example loop_depth_first :
  DFSByHash Sample.countCalls (canonicalOrder nat) Sample.loop 1 0
  = Some (None, [1; 3; 2], 3).
Proof. vm_compute. reflexivity. Qed.

Example loop_breadth_first :
  BFSByHash Sample.countCalls (canonicalOrder nat) Sample.loop 1 0
  = Some (None, [1; 2; 3], 3).
Proof. vm_compute. reflexivity. Qed.

(** C1: [Vertex] has no error to return.  Called with a value whose hash
    is already stored, here the key 1, it puts the new value in the place
    of the stored one. *)
Theorem Vertex_replaces_stored_value :
  vertices Sample.tagged !! 1 = Some (1, 10) ∧
  vertices (Vertex Sample.tagged (1, 20)) !! 1 = Some (1, 20).
Proof. split; vm_compute; reflexivity. Qed.

(** The pre-check on the chain 1 -> 2 -> 3 for the candidate edge 3 -> 1. *)
Lemma CreatesCycleByHashes_spec_chain :
  (is_Some (vertices Sample.chain !! 3) ∧ is_Some (vertices Sample.chain !! 1)) ∧
  ((∃ b : bool, CreatesCycleByHashes (canonicalOrder nat) Sample.chain 3 1
                = Some (b, None, Sample.chain)
                ∧ (b = true ↔ 3 = 1 ∨ tc (predecessor Sample.chain) 3 1)) ∧
   (tc (predecessor Sample.chain) 3 1 ↔ tc (successor Sample.chain) 1 3) ∧
   (∀ w : Z,
      (∃ e, WeightedEdgeByHashes (canonicalOrder nat) Sample.chain 3 3 w
            = Some (Some e, Sample.chain) ∧ kindOf e = WouldCreateCycle) ∧
      ((GetEdgeByHashes Sample.chain 3 1).2 = true →
         ∃ e, WeightedEdgeByHashes (canonicalOrder nat) Sample.chain 1 3 w
              = Some (Some e, Sample.chain) ∧ kindOf e = WouldCreateCycle) ∧
      ((GetEdgeByHashes Sample.chain 3 1).2 = false →
         ¬ (3 = 1 ∨ tc (successor Sample.chain) 1 3) →
         ∃ d', WeightedEdgeByHashes (canonicalOrder nat) Sample.chain 3 1 w = Some (None, d')
               ∧ (GetEdgeByHashes d' 3 1).2 = true))).
Proof.
  assert (H3 : is_Some (vertices Sample.chain !! 3)) by (vm_compute; eexists; reflexivity).
  assert (H1 : is_Some (vertices Sample.chain !! 1)) by (vm_compute; eexists; reflexivity).
  assert (Hc : consistent Sample.chain) by apply consistent_history.
  assert (Hac : isAcyclic (props Sample.chain) = true) by (vm_compute; reflexivity).
  split; [by split|].
  destruct (CreatesCycleByHashes_spec (canonicalOrder nat) Sample.chain 3 1 H3 H1)
    as (Hverdict & Hpath & Hadd).
  split; [exact Hverdict|]. split; [exact (Hpath Hc)|exact (Hadd Hc Hac)].
Defined.

(** Both walks from vertex 1 of the sample with a cycle, neighbours taken
    in reversed order. *)
Lemma traversals_visit_reachable_loop :
  ((∀ (st : nat) (v : nat), (Sample.countCalls st v).1 = false) ∧
   is_Some (vertices Sample.loop !! 1)) ∧
  ((∃ tr, DFSByHash Sample.countCalls (reversedOrder nat) Sample.loop 1 0
          = Some (None, tr, replay Sample.countCalls Sample.loop 0 tr)
          ∧ NoDup tr ∧ ∀ x, x ∈ tr ↔ rtc (successor Sample.loop) 1 x) ∧
   (∃ tr, BFSByHash Sample.countCalls (reversedOrder nat) Sample.loop 1 0
          = Some (None, tr, replay Sample.countCalls Sample.loop 0 tr)
          ∧ NoDup tr ∧ ∀ x, x ∈ tr ↔ rtc (successor Sample.loop) 1 x)).
Proof.
  assert (Hgo : ∀ (st : nat) (v : nat), (Sample.countCalls st v).1 = false)
    by (intros; reflexivity).
  assert (H1 : is_Some (vertices Sample.loop !! 1)) by (vm_compute; eexists; reflexivity).
  split; [by split|].
  exact (traversals_visit_reachable Sample.countCalls (reversedOrder nat) Sample.loop 1 0 Hgo H1).
Defined.

(** Both walks from the hash 9, which the sample does not store. *)
Lemma traversals_start_absent_loop :
  vertices Sample.loop !! 9 = None ∧
  ((∃ e, DFSByHash Sample.countCalls (canonicalOrder nat) Sample.loop 9 0
         = Some (Some e, [], 0) ∧ kindOf e = NotFound) ∧
   (∃ e, BFSByHash Sample.countCalls (canonicalOrder nat) Sample.loop 9 0
         = Some (Some e, [], 0) ∧ kindOf e = NotFound)).
Proof.
  assert (H9 : vertices Sample.loop !! 9 = None) by (vm_compute; reflexivity).
  split; [done|].
  exact (traversals_start_absent Sample.countCalls (canonicalOrder nat) Sample.loop 9 0 H9).
Defined.

(** The pre-check from the hash 7, which the chain does not store. *)
Lemma CreatesCycleByHashes_absent_chain :
  (vertices Sample.chain !! 7 = None ∨ vertices Sample.chain !! 1 = None) ∧
  (∃ e, CreatesCycleByHashes (canonicalOrder nat) Sample.chain 7 1
        = Some (false, Some e, Sample.chain) ∧ kindOf e = NotFound).
Proof.
  assert (H7 : vertices Sample.chain !! 7 = None ∨ vertices Sample.chain !! 1 = None)
    by (left; vm_compute; reflexivity).
  split; [done|].
  exact (CreatesCycleByHashes_absent (canonicalOrder nat) Sample.chain 7 1 H7).
Defined.

(** Two vertices and the single edge 1 -> 2 of weight 5. *)
Lemma GetEdgeByHashes_oriented_oneEdge :
  (1 ≠ 2 ∧
   fst <$> WeightedEdgeByHashes (canonicalOrder nat)
             (history Sample.IntHash Sample.cyclic Sample.oneEdge) 1 2 5 = Some None ∧
   ¬ added Sample.IntHash Sample.cyclic
       (Sample.oneEdge ++ CallEdge (canonicalOrder nat) 1 2 5 :: []) 2 1) ∧
  (GetEdgeByHashes (history Sample.IntHash Sample.cyclic
                      (Sample.oneEdge ++ CallEdge (canonicalOrder nat) 1 2 5 :: [])) 2 1
   = (zeroEdge, false)
   ∧ ∃ vs vt,
       vertices (history Sample.IntHash Sample.cyclic Sample.oneEdge) !! 1 = Some vs
       ∧ vertices (history Sample.IntHash Sample.cyclic Sample.oneEdge) !! 2 = Some vt
       ∧ GetEdgeByHashes (history Sample.IntHash Sample.cyclic
                            (Sample.oneEdge ++ CallEdge (canonicalOrder nat) 1 2 5 :: [])) 1 2
         = ({| Source := vs; Target := vt; Weight := 5 |}, true)).
Proof.
  assert (Hne : 1 ≠ 2) by lia.
  assert (Hok : fst <$> WeightedEdgeByHashes (canonicalOrder nat)
                  (history Sample.IntHash Sample.cyclic Sample.oneEdge) 1 2 5 = Some None)
    by (vm_compute; reflexivity).
  assert (Hnone : ¬ added Sample.IntHash Sample.cyclic
                    (Sample.oneEdge ++ CallEdge (canonicalOrder nat) 1 2 5 :: []) 2 1).
  { intros (cs1 & ord & w & cs2 & Heq & _). unfold Sample.oneEdge in Heq.
    destruct cs1 as [|c1 [|c2 [|c3 cs1]]]; simpl in Heq; try discriminate Heq.
    injection Heq as _ _ _ Heq. destruct cs1; discriminate Heq. }
  split; [by split_and!|].
  exact (GetEdgeByHashes_oriented Sample.IntHash Sample.cyclic Sample.oneEdge
           (canonicalOrder nat) 1 2 5 [] Hne Hok Hnone).
Defined.

(** ** Graphs built by calls *)
Section Built.
Context {K : Type} `{Countable K}.
Context {T : Type} `{Zero T}.
Implicit Types (d : directed K T) (ord : RangeOrder K) (hash : T → K).
Implicit Types (p : properties) (cs : list (call K T)).

Lemma hash_perform d c : hash (perform d c) = hash d.
Proof.
  destruct c as [value|ord s t w]; simpl; [done|].
  destruct (WeightedEdgeByHashes_outcome ord d s t w) as (err & d' & -> & Hout).
  by destruct Hout.
Qed.

Lemma hash_history (h : T → K) p cs : hash (history h p cs) = h.
Proof.
  induction cs as [|c cs IH] using rev_ind; [done|].
  by rewrite history_snoc, hash_perform.
Qed.

Lemma vertices_kept d c k :
  is_Some (vertices d !! k) → is_Some (vertices (perform d c) !! k).
Proof.
  intros Hk. destruct c as [value|ord s t w]; simpl.
  - rewrite lookup_insert. case_decide; [by eexists|done].
  - destruct (WeightedEdgeByHashes_outcome ord d s t w) as (err & d' & -> & Hout).
    by destruct Hout.
Qed.

Lemma vertices_kept_all d cs k :
  is_Some (vertices d !! k) → is_Some (vertices (foldl perform d cs) !! k).
Proof.
  revert d. induction cs as [|c cs IH]; intros d Hk; simpl; [done|].
  by apply IH, vertices_kept.
Qed.

Lemma vertices_perform_edge ord d s t w err d' :
  WeightedEdgeByHashes ord d s t w = Some (err, d') → vertices d' = vertices d.
Proof.
  intros Hrun.
  destruct (WeightedEdgeByHashes_outcome ord d s t w) as (err0 & d0 & Hrun0 & Hout).
  rewrite Hrun in Hrun0. simplify_eq. by destruct Hout.
Qed.

(** Every vertex sits under its own hash, and every edge under the hashes
    of the two vertices it holds. *)
Lemma hashed_history hash p cs :
  (∀ k v, vertices (history hash p cs) !! k = Some v → hash v = k) ∧
  (∀ a b e, inner (edges (history hash p cs)) a !! b = Some e →
     hash (Source e) = a ∧ hash (Target e) = b).
Proof.
  induction cs as [|c cs [IHv IHe]] using rev_ind.
  { split; intros *; unfold history; simpl.
    - by rewrite lookup_empty.
    - by rewrite inner_empty, lookup_empty. }
  rewrite history_snoc. destruct c as [value|ord s t w]; simpl.
  - split; [|done]. intros k v. rewrite hash_history, lookup_insert.
    case_decide; [|by apply IHv]. by intros; simplify_eq.
  - destruct (WeightedEdgeByHashes_outcome ord (history hash p cs) s t w)
      as (err & d' & -> & Hout).
    destruct Hout as [| | | |vs vt Hs Ht _ _]; try done. simpl. split; [done|].
    intros a b e. rewrite inner_setEdge. case_decide as Hd; [|by apply IHe].
    destruct Hd as [<- <-]. intros; simplify_eq; simpl. eauto.
Qed.

(** X1: in a graph built by calls the three indices agree: the edge
    [GetEdgeByHashes] finds for (a, b) is the entry of the forward index
    under a, b and of the reverse index under b, a, so b is a successor
    of a exactly when a is a predecessor of b. *)
Theorem indices_in_lockstep hash p cs (a b : K) :
  let d := history hash p cs in
  (inner (outEdges d) a !! b = inner (edges d) a !! b ∧
   inner (inEdges d) b !! a = inner (edges d) a !! b) ∧
  ((GetEdgeByHashes d a b).2 = true ↔ successor d a b) ∧
  (successor d a b ↔ predecessor d b a).
Proof.
  intros d. pose proof (consistent_history hash p cs) as Hc. fold d in Hc.
  split_and!.
  - apply (out_lockstep d Hc).
  - apply (in_lockstep d Hc).
  - symmetry. by apply successor_edge.
  - symmetry. by apply predecessor_successor.
Qed.

(** X2: in a graph built by calls every edge joins two stored vertices. *)
Theorem edges_join_stored_vertices hash p cs (a b : K) :
  (GetEdgeByHashes (history hash p cs) a b).2 = true →
  is_Some (vertices (history hash p cs) !! a) ∧
  is_Some (vertices (history hash p cs) !! b).
Proof.
  intros Hedge. apply (endpoints_stored _ (consistent_history hash p cs)).
  by apply GetEdgeByHashes_true.
Qed.

(** X3: a graph built by calls under acyclic enforcement has no cycle:
    when a path of edges leads from a to b, none leads from b to a. *)
Theorem enforced_graph_has_no_cycle hash cs (a b : K) :
  tc (successor (history hash {| isAcyclic := true |} cs)) a b →
  ¬ tc (successor (history hash {| isAcyclic := true |} cs)) b a.
Proof.
  intros Hab Hba.
  apply (no_cycle _ (consistent_history hash {| isAcyclic := true |} cs)) with a.
  - by rewrite props_history.
  - by etrans.
Qed.

(** X4: in a graph built by calls a vertex stored under a hash is a
    vertex with that hash. *)
Theorem stored_under_own_hash hash p cs (k : K) (v : T) :
  vertices (history hash p cs) !! k = Some v → hash v = k.
Proof. apply hashed_history. Qed.

(** X5: in a graph built by calls, [edgesAreEqual] on two stored edges
    tells whether they are stored under the same ordered pair. *)
Theorem edgesAreEqual_stored hash p cs (a1 b1 a2 b2 : K) (e1 e2 : Edge T) :
  GetEdgeByHashes (history hash p cs) a1 b1 = (e1, true) →
  GetEdgeByHashes (history hash p cs) a2 b2 = (e2, true) →
  edgesAreEqual (history hash p cs) e1 e2 = true ↔ a1 = a2 ∧ b1 = b2.
Proof.
  rewrite !GetEdgeByHashes_lookup. intros H1 H2.
  destruct (inner _ a1 !! b1) as [e1'|] eqn:He1; [|done].
  destruct (inner _ a2 !! b2) as [e2'|] eqn:He2; [|done]. simplify_eq.
  destruct (hashed_history hash p cs) as [_ Hedges].
  destruct (Hedges _ _ _ He1) as [<- <-], (Hedges _ _ _ He2) as [<- <-].
  unfold edgesAreEqual. rewrite hash_history.
  rewrite andb_true_iff, !bool_decide_eq_true. done.
Qed.

(** X6: no call removes anything: the hashes stored after some calls are
    still stored after any further calls, and so is every edge, with the
    same source, target and weight. *)
Theorem calls_never_remove hash p cs1 cs2 :
  (∀ k : K, is_Some (vertices (history hash p cs1) !! k) →
     is_Some (vertices (history hash p (cs1 ++ cs2)) !! k)) ∧
  (∀ (a b : K) e,
     GetEdgeByHashes (history hash p cs1) a b = (e, true) →
     GetEdgeByHashes (history hash p (cs1 ++ cs2)) a b = (e, true)).
Proof.
  rewrite history_app. split.
  - intros k. apply vertices_kept_all.
  - intros a b e. rewrite !GetEdgeByHashes_lookup.
    destruct (inner (edges (history hash p cs1)) a !! b) as [e'|] eqn:He; [|done].
    intros; simplify_eq. by rewrite (edge_kept_all _ cs2 _ _ _ He).
Qed.

End Built.

(** ** Inserting an edge *)
Section Inserting.
Context {K : Type} `{Countable K}.
Context {T : Type} `{Zero T}.
Implicit Types (d : directed K T) (ord : RangeOrder K) (hash : T → K).
Implicit Types (p : properties) (cs : list (call K T)).

Lemma WeightedEdgeByHashes_success ord d s t w d' :
  WeightedEdgeByHashes ord d s t w = Some (None, d') →
  ∃ vs vt, vertices d !! s = Some vs ∧ vertices d !! t = Some vt
           ∧ (GetEdgeByHashes d s t).2 = false
           ∧ d' = addEdge d s t {| Source := vs; Target := vt; Weight := w |}.
Proof.
  intros Hrun.
  destruct (WeightedEdgeByHashes_outcome ord d s t w) as (err & d0 & Hrun0 & Hout).
  rewrite Hrun in Hrun0. simplify_eq.
  inversion Hout; subst. by eexists _, _.
Qed.

Lemma inner_setEdge_at (m : gmap K (gmap K (Edge T))) a b e x :
  inner (setEdge m a b e) x = if decide (a = x) then <[b := e]> (inner m a) else inner m x.
Proof.
  apply map_eq. intros y. rewrite inner_setEdge.
  destruct (decide (a = x)) as [<-|Hne].
  - destruct (decide (b = y)) as [<-|?].
    + rewrite decide_True by done. by rewrite lookup_insert_eq.
    + rewrite decide_False by naive_solver. by rewrite lookup_insert_ne.
  - by rewrite decide_False by naive_solver.
Qed.

Lemma DegreeByHash_stored d h v :
  vertices d !! h = Some v →
  DegreeByHash d h
  = ((Z.of_nat (size (inner (inEdges d) h)) + Z.of_nat (size (inner (outEdges d) h)))%Z, None).
Proof.
  unfold DegreeByHash, inner. intros ->.
  destruct (inEdges d !! h), (outEdges d !! h); simpl;
    rewrite ?map_size_empty; f_equal; lia.
Qed.

(** X7: an edge that was added is found, with the two stored vertices and
    the weight given, and adding it once more fails with an
    already-exists error and leaves the graph as it is. *)
Theorem added_edge_found_and_kept ord ord' d (s t : K) (w w' : Z) d' :
  WeightedEdgeByHashes ord d s t w = Some (None, d') →
  (∃ vs vt, vertices d !! s = Some vs ∧ vertices d !! t = Some vt ∧
     GetEdgeByHashes d' s t = ({| Source := vs; Target := vt; Weight := w |}, true)) ∧
  WeightedEdgeByHashes ord' d' s t w' = Some (Some (ErrEdgeExists s t), d').
Proof.
  intros (vs & vt & Hs & Ht & _ & ->)%WeightedEdgeByHashes_success.
  assert (Hget : GetEdgeByHashes (addEdge d s t {| Source := vs; Target := vt; Weight := w |}) s t
                 = ({| Source := vs; Target := vt; Weight := w |}, true)).
  { rewrite GetEdgeByHashes_lookup. simpl. rewrite inner_setEdge.
    by rewrite decide_True. }
  split; [by eexists _, _|].
  unfold WeightedEdgeByHashes. simpl. rewrite Hs, Ht, Hget. done.
Qed.

(** X8: adding an edge changes nothing else: the vertices, the hash
    function and the enforcement flag stay, and so does what
    [GetEdgeByHashes] returns for every other ordered pair. *)
Theorem added_edge_touches_one_pair ord d (s t : K) (w : Z) d' :
  WeightedEdgeByHashes ord d s t w = Some (None, d') →
  vertices d' = vertices d ∧ hash d' = hash d ∧ props d' = props d ∧
  ∀ a b, (a, b) ≠ (s, t) → GetEdgeByHashes d' a b = GetEdgeByHashes d a b.
Proof.
  intros (vs & vt & Hs & Ht & _ & ->)%WeightedEdgeByHashes_success.
  split_and!; [done..|]. intros a b Hne.
  rewrite !GetEdgeByHashes_lookup. simpl. rewrite inner_setEdge.
  rewrite decide_False; [done|]. intros [-> ->]. done.
Qed.

(** X9: in a graph built by calls, adding the edge (s, t) raises the
    degree of s by one and the degree of t by one (of a vertex that is
    both by two), and keeps the degree of every other vertex. *)
Theorem added_edge_degrees hash p cs ord (s t : K) (w : Z) d' (v : K) :
  WeightedEdgeByHashes ord (history hash p cs) s t w = Some (None, d') →
  is_Some (vertices (history hash p cs) !! v) →
  DegreeByHash d' v
  = (((DegreeByHash (history hash p cs) v).1
      + (if decide (v = s) then 1 else 0) + (if decide (v = t) then 1 else 0))%Z, None).
Proof.
  intros Hrun [x Hv].
  pose proof (consistent_history hash p cs) as Hc.
  destruct (WeightedEdgeByHashes_success _ _ _ _ _ _ Hrun) as (vs & vt & Hs & Ht & Hdup & ->).
  apply GetEdgeByHashes_false in Hdup.
  rewrite (DegreeByHash_stored _ v x Hv).
  rewrite (DegreeByHash_stored _ v x) by done. simpl.
  rewrite !inner_setEdge_at. f_equal.
  assert (Hout : inner (outEdges (history hash p cs)) s !! t = None)
    by (by rewrite (out_lockstep _ Hc)).
  assert (Hin : inner (inEdges (history hash p cs)) t !! s = None)
    by (by rewrite (in_lockstep _ Hc)).
  repeat case_decide; simplify_eq; rewrite ?map_size_insert_None by done; lia.
Qed.

(** X10: the order in which the maps are iterated has no effect on the
    pre-check or on the insertion: whatever the orders, the verdict, the
    error and the resulting graph are the same. *)
Theorem iteration_order_irrelevant ord1 ord2 d (s t : K) (w : Z) :
  CreatesCycleByHashes ord1 d s t = CreatesCycleByHashes ord2 d s t ∧
  WeightedEdgeByHashes ord1 d s t w = WeightedEdgeByHashes ord2 d s t w.
Proof.
  assert (Hck : CreatesCycleByHashes ord1 d s t = CreatesCycleByHashes ord2 d s t).
  { destruct (vertices d !! s) as [vs|] eqn:Hs.
    2:{ unfold CreatesCycleByHashes. by rewrite Hs. }
    destruct (vertices d !! t) as [vt|] eqn:Ht.
    2:{ unfold CreatesCycleByHashes. by rewrite Hs, Ht. }
    destruct (CreatesCycleByHashes_present ord1 d s t vs vt Hs Ht) as (b1 & -> & H1).
    destruct (CreatesCycleByHashes_present ord2 d s t vs vt Hs Ht) as (b2 & -> & H2).
    do 3 f_equal. destruct b1, b2; naive_solver. }
  split; [done|]. unfold WeightedEdgeByHashes. by rewrite Hck.
Qed.

(** X11: on a graph whose indices agree and that has no cycle, the
    pre-check is exact: its verdict is [true] exactly when the graph with
    the candidate edge put in by [addEdge] has a cycle. *)
Theorem precheck_exact ord d (s t : K) (e : Edge T) :
  consistent d → (∀ v, ¬ tc (successor d) v v) →
  is_Some (vertices d !! s) → is_Some (vertices d !! t) →
  ∃ b : bool, CreatesCycleByHashes ord d s t = Some (b, None, d)
              ∧ (b = true ↔ ∃ v, tc (successor (addEdge d s t e)) v v).
Proof.
  intros Hc Hno [vs Hs] [vt Ht].
  destruct (CreatesCycleByHashes_present ord d s t vs vt Hs Ht) as (b & Hb & Hiff).
  exists b. split; [done|]. rewrite Hiff, (backward_forward d s t Hc). split.
  - intros Hpath. exists s. eapply tc_rtc_r.
    + apply tc_once, successor_addEdge. by right.
    + eapply rtc_subrel; [|done]. intros x y Hxy. apply successor_addEdge. by left.
  - intros [v Hloop].
    destruct (tc_extended (successor d) _ s t v v
                (λ x y, proj1 (successor_addEdge d s t e x y)) Hloop) as [Hold|[Hvs Htv]].
    + by destruct (Hno v).
    + by etrans.
Qed.

End Inserting.

(** ** Walks with a callback that may stop them *)
Section Stopping.
Context {K : Type} `{Countable K}.
Context {T : Type} `{Zero T}.
Context {St : Type} (visit : St → T → bool * St).
Implicit Types (d : directed K T) (ord : RangeOrder K) (s : walkState K St) (st : St).

Lemma replay_cons d st h tr :
  replay visit d st (h :: tr)
  = replay visit d (visit st (default zero (vertices d !! h))).2 tr.
Proof. done. Qed.

Lemma verdicts_snoc d st tr h :
  verdicts visit d st (tr ++ [h])
  = verdicts visit d st tr ++ [(visit (replay visit d st tr) (default zero (vertices d !! h))).1].
Proof.
  revert st. induction tr as [|h0 tr IH]; intros st; simpl; [done|].
  by rewrite IH.
Qed.

(** The call on [cur] goes on record: with the signal to stop it ends the
    calls, without it the walk stays unstopped. *)
Lemma record_call d st0 tr st cur :
  st = replay visit d st0 tr →
  verdicts visit d st0 tr = replicate (length tr) false →
  verdicts visit d st0 (tr ++ [cur])
  = replicate (length tr) false ++ [(visit st (default zero (vertices d !! cur))).1]
  ∧ (visit st (default zero (vertices d !! cur))).2 = replay visit d st0 (tr ++ [cur]).
Proof. intros -> Hv. by rewrite verdicts_snoc, Hv, replay_snoc. Qed.

Lemma dfsBody_unstopped ord d st0 s s' :
  unstopped visit d st0 s → dfsBody visit ord d s = Continue s' →
  unstopped visit d st0 s'.
Proof.
  intros [Hrep Hv]. unfold dfsBody.
  destruct s as [[|cur stack] seen n tr st]; simpl in *; [done|].
  case_decide; [by intros; simplify_eq|].
  destruct (record_call d st0 tr st cur Hrep Hv) as [Hv' Hst'].
  destruct (visit st _) as [[] st']; intros; simplify_eq; simpl in *.
  split; [done|]. simpl. by rewrite Hv', length_app, Nat.add_1_r, replicate_S_end.
Qed.

Lemma bfsBody_unstopped ord d st0 s s' :
  unstopped visit d st0 s → bfsBody visit ord d s = Continue s' →
  unstopped visit d st0 s'.
Proof.
  intros [Hrep Hv]. unfold bfsBody.
  destruct s as [[|cur stack] seen n tr st]; simpl in *; [done|].
  destruct (record_call d st0 tr st cur Hrep Hv) as [Hv' Hst'].
  destruct (visit st _) as [[] st']; intros; simplify_eq; simpl in *.
  split; [done|]. simpl. by rewrite Hv', length_app, Nat.add_1_r, replicate_S_end.
Qed.

Lemma dfsBody_entered ord d start s s' :
  dfsInv d start s → entered start s → dfsBody visit ord d s = Continue s' →
  entered start s'.
Proof.
  intros [Hcalls _ _ _ _] Hent. unfold dfsBody, entered in *.
  destruct s as [[|cur stack] seen n tr st]; simpl in *; [done|].
  case_decide as Hseen.
  - intros; simplify_eq; simpl. right.
    destruct Hent as [[-> ?]|?]; [|done]. by apply Hcalls, elem_of_nil in Hseen.
  - destruct (visit st _) as [[] st']; intros; simplify_eq; simpl. right.
    destruct Hent as [[-> ?]|Hh]; [by simplify_eq|].
    rewrite head_app. by rewrite Hh.
Qed.

Lemma bfsBody_entered ord d start s s' :
  entered start s → bfsBody visit ord d s = Continue s' → entered start s'.
Proof.
  intros Hent. unfold bfsBody, entered in *.
  destruct s as [[|cur stack] seen n tr st]; simpl in *; [done|].
  destruct (visit st _) as [[] st']; intros; simplify_eq; simpl. right.
  destruct Hent as [[-> ?]|Hh]; [by simplify_eq|].
  rewrite head_app. by rewrite Hh.
Qed.

Lemma dfsBody_exit ord d start st0 s r :
  dfsInv d start s → unstopped visit d st0 s → entered start s →
  dfsBody visit ord d s = Exit r →
  closure r = replay visit d st0 (calls r) ∧ walked visit d start st0 (calls r).
Proof.
  intros [Hcalls Honce Hreach Hstart Hcl] [Hrep Hv] Hent. unfold dfsBody, walked, entered in *.
  destruct s as [[|cur stack] seen n tr st]; simpl in *.
  - intros; simplify_eq; simpl. split; [done|]. split_and!; [done| | |].
    + destruct Hent as [[_ ?]|?]; done.
    + intros x Hx. apply Hreach. right. by apply Hcalls.
    + right. split; [done|]. intros x Hx. apply Hcalls.
      eapply closed_reachable; [|by destruct Hstart as [?%elem_of_nil|?]|done].
      intros v w Hv' Hvw. destruct (Hcl v w Hv' Hvw) as [?%elem_of_nil|?]; done.
  - case_decide as Hseen; [done|].
    destruct (record_call d st0 tr st cur Hrep Hv) as [Hv' Hst'].
    destruct (visit st _) as [[] st']; intros; simplify_eq; simpl in *.
    split; [done|]. split_and!.
    + apply NoDup_app. split; [done|]. split; [|apply NoDup_singleton].
      intros x Hx ->%list_elem_of_singleton. by apply Hseen, Hcalls.
    + destruct Hent as [[-> ?]|Hh]; [by simplify_eq|].
      rewrite head_app. by rewrite Hh.
    + intros x [Hx| ->%list_elem_of_singleton]%elem_of_app.
      * apply Hreach. right. by apply Hcalls.
      * apply Hreach. left; by left.
    + left. by eexists.
Qed.

Lemma bfsBody_exit ord d start st0 s r :
  bfsInv d start s → unstopped visit d st0 s → entered start s →
  bfsBody visit ord d s = Exit r →
  closure r = replay visit d st0 (calls r) ∧ walked visit d start st0 (calls r).
Proof.
  intros [Honce Hvis Hreach Hstart Hcl] [Hrep Hv] Hent. unfold bfsBody, walked, entered in *.
  destruct s as [[|cur queue] seen n tr st]; simpl in *.
  - intros; simplify_eq; simpl. rewrite app_nil_r in Honce.
    assert (Hseen : ∀ x, x ∈ tr ↔ x ∈ seen).
    { intros x. rewrite Hvis, elem_of_nil. naive_solver. }
    split; [done|]. split_and!; [done| | |].
    + destruct Hent as [[_ ?]|?]; done.
    + intros x Hx. by apply Hreach, Hseen.
    + right. split; [done|]. intros x Hx. apply Hseen.
      eapply closed_reachable; [|done..].
      intros v w Hv' Hvw. eapply Hcl; [|done]. by apply Hseen.
  - destruct (record_call d st0 tr st cur Hrep Hv) as [Hv' Hst'].
    destruct (visit st _) as [[] st']; intros; simplify_eq; simpl in *.
    split; [done|]. split_and!.
    + apply NoDup_app in Honce as (Htr & Hdisj & [Hcur Hq]%NoDup_cons).
      apply NoDup_app. split; [done|]. split; [|apply NoDup_singleton].
      intros x Hx ->%list_elem_of_singleton. apply (Hdisj _ Hx). by left.
    + destruct Hent as [[-> ?]|Hh]; [by simplify_eq|].
      rewrite head_app. by rewrite Hh.
    + intros x [Hx| ->%list_elem_of_singleton]%elem_of_app.
      * apply Hreach, Hvis. by left.
      * apply Hreach, Hvis. right; by left.
    + left. by eexists.
Qed.

(** X12: whatever the callback, [DFSByHash] from a stored start returns
    without error.  It calls the callback first on the start, never twice
    on a hash and only on hashes reachable from the start; either the
    last call asked to stop and no earlier one did, or no call did and
    every reachable hash was called on. *)
Theorem DFSByHash_any_callback ord d (start : K) st :
  is_Some (vertices d !! start) →
  ∃ tr, DFSByHash visit ord d start st = Some (None, tr, replay visit d st tr)
        ∧ walked visit d start st tr.
Proof.
  intros [v Hv]. unfold DFSByHash. rewrite Hv.
  destruct (dfsLoop_terminates visit ord d start st) as [r Hr]. rewrite Hr. simpl.
  destruct (iterate_exit (dfsBody visit ord d)
              (λ s, dfsInv d start s ∧ unstopped visit d st s ∧ entered start s))
    with (fuel := entryCount (outEdges d) + 2) (s := dfsStart start st) (r := r)
    as (s0 & (Hinv & Hun & Hent) & Hexit); [| |done|].
  - intros s s' (Hinv & Hun & Hent) Hb. split_and!.
    + by eapply dfsInv_step.
    + by eapply dfsBody_unstopped.
    + by eapply dfsBody_entered.
  - split_and!; [apply (dfsInv_start visit)|by split|by left].
  - destruct (dfsBody_exit ord d start st s0 r Hinv Hun Hent Hexit) as [-> Hw].
    by exists (calls r).
Qed.

(** X13: whatever the callback, [BFSByHash] from a stored start returns
    without error.  It calls the callback first on the start, never twice
    on a hash and only on hashes reachable from the start; either the
    last call asked to stop and no earlier one did, or no call did and
    every reachable hash was called on. *)
Theorem BFSByHash_any_callback ord d (start : K) st :
  is_Some (vertices d !! start) →
  ∃ tr, BFSByHash visit ord d start st = Some (None, tr, replay visit d st tr)
        ∧ walked visit d start st tr.
Proof.
  intros [v Hv]. unfold BFSByHash. rewrite Hv.
  destruct (bfsLoop_terminates visit ord d start st) as [r Hr]. rewrite Hr. simpl.
  destruct (iterate_exit (bfsBody visit ord d)
              (λ s, bfsInv d start s ∧ unstopped visit d st s ∧ entered start s))
    with (fuel := entryCount (outEdges d) + 2) (s := bfsStart start st) (r := r)
    as (s0 & (Hinv & Hun & Hent) & Hexit); [| |done|].
  - intros s s' (Hinv & Hun & Hent) Hb. split_and!.
    + by eapply bfsInv_step.
    + by eapply bfsBody_unstopped.
    + by eapply bfsBody_entered.
  - split_and!; [apply (bfsInv_start visit)|by split|by left].
  - destruct (bfsBody_exit ord d start st s0 r Hinv Hun Hent Hexit) as [-> Hw].
    by exists (calls r).
Qed.

End Stopping.

(** ** Counting entries, predecessors and the methods that take vertices *)
Section Counting.
Context {K : Type} `{Countable K}.
Context {T : Type} `{Zero T}.
Implicit Types (d : directed K T) (ord : RangeOrder K) (hash : T → K).
Implicit Types (p : properties) (cs : list (call K T)).
Implicit Types (m : gmap K (gmap K (Edge T))).

Lemma entryCount_insert m a x :
  m !! a = None → entryCount (<[a := x]> m) = size x + entryCount m.
Proof. intros Ha. unfold entryCount. by rewrite map_to_list_insert. Qed.

Lemma entryCount_delete m a ma :
  m !! a = Some ma → entryCount m = size ma + entryCount (delete a m).
Proof.
  intros Ha. rewrite <-(insert_delete_id m a ma) at 1 by done.
  apply entryCount_insert, lookup_delete_eq.
Qed.

(** A new entry is one more entry, whether its key is in the outer map yet or not. *)
Lemma entryCount_setEdge m a b e :
  inner m a !! b = None → entryCount (setEdge m a b e) = S (entryCount m).
Proof.
  unfold setEdge, inner. destruct (m !! a) as [ma|] eqn:Ha; simpl.
  - intros Hb. rewrite Ha; simpl.
    rewrite <-insert_delete_eq, entryCount_insert by apply lookup_delete_eq.
    rewrite (entryCount_delete m a ma Ha), map_size_insert_None by done. lia.
  - intros _. rewrite lookup_insert_eq; simpl. rewrite insert_insert_eq.
    rewrite entryCount_insert by done.
    rewrite map_size_insert_None, map_size_empty by apply lookup_empty. lia.
Qed.

(** X14: in a graph built by calls, [predecessors] of a hash lists, each
    once, the hashes from which an edge leads to it. *)
Theorem predecessors_are_edge_sources hash p cs ord n (a : K) :
  let d := history hash p cs in
  NoDup (predecessors ord n d a) ∧
  ∀ b, b ∈ predecessors ord n d a ↔ (GetEdgeByHashes d b a).2 = true.
Proof.
  intros d. pose proof (consistent_history hash p cs) as Hc. fold d in Hc. split.
  - unfold predecessors. destruct (inEdges d !! a); [apply NoDup_rangeKeys|apply NoDup_nil_2].
  - intros b. rewrite elem_of_predecessors, predecessor_successor by done.
    by apply successor_edge.
Qed.

(** X15: in a graph built by calls the three indices hold the same number
    of entries: one per edge. *)
Theorem indices_have_equal_counts hash p cs :
  entryCount (outEdges (history hash p cs)) = entryCount (edges (history hash p cs)) ∧
  entryCount (inEdges (history hash p cs)) = entryCount (edges (history hash p cs)).
Proof.
  induction cs as [|c cs [IHo IHi]] using rev_ind; [done|].
  rewrite history_snoc. destruct c as [value|ord s t w]; simpl; [done|].
  pose proof (consistent_history hash p cs) as Hc.
  destruct (WeightedEdgeByHashes_outcome ord (history hash p cs) s t w)
    as (err & d' & -> & Hout).
  destruct Hout as [| | | |vs vt _ _ Hdup%GetEdgeByHashes_false _]; try done. simpl.
  assert (Hout : inner (outEdges (history hash p cs)) s !! t = None)
    by (by rewrite (out_lockstep _ Hc)).
  assert (Hin : inner (inEdges (history hash p cs)) t !! s = None)
    by (by rewrite (in_lockstep _ Hc)).
  rewrite !entryCount_setEdge by done. lia.
Qed.

Lemma added_vertex_stored hash p cs (v : T) :
  CallVertex v ∈ cs → is_Some (vertices (history hash p cs) !! hash v).
Proof.
  intros (cs1 & cs2 & ->)%list_elem_of_split.
  rewrite history_app. simpl. apply vertices_kept_all. simpl.
  rewrite hash_history, lookup_insert_eq. by eexists.
Qed.

End Counting.

Section ByValue.
Context {K : Type} `{Countable K}.
Context {T : Type} `{Zero T}.
Context {St : Type} (visit : St → T → bool * St).
Implicit Types (ord : RangeOrder K) (p : properties) (cs : list (call K T)).


End ByValue.

(** ** The predefined hashes and the functional options *)
Section Predefined.
Context {K : Type} `{Countable K} `{Zero K}.

Lemma Vertex_same (d : directed K K) (v : K) :
  vertices d !! hash d v = Some v → Vertex d v = d.
Proof. intros Hv. destruct d; unfold Vertex; simpl in *. f_equal. by apply insert_id. Qed.

(** With a hash that returns the vertex itself, adding a stored vertex
    again is a no-op. *)
Lemma identity_hash_readd (h : K → K) p (cs : list (call K K)) (v : K) :
  (∀ x, h x = x) →
  is_Some (vertices (history h p cs) !! v) →
  Vertex (history h p cs) v = history h p cs.
Proof.
  intros Hid [x Hx]. apply Vertex_same. rewrite hash_history, Hid.
  destruct (hashed_history h p cs) as [Hv _].
  specialize (Hv _ _ Hx). rewrite Hid in Hv. by subst.
Qed.

End Predefined.

(** X17: in a graph built by calls with [IntHash] or [StringHash],
    calling [Vertex] on a vertex that is stored leaves the graph as it
    is. *)
Theorem predefined_hash_readd p :
  (∀ cs (v : Z), is_Some (vertices (history IntHash p cs) !! v) →
     Vertex (history IntHash p cs) v = history IntHash p cs) ∧
  (∀ cs (v : string), is_Some (vertices (history StringHash p cs) !! v) →
     Vertex (history StringHash p cs) v = history StringHash p cs).
Proof. split; intros cs v; by apply identity_hash_readd. Qed.



(** ** The properties above on the sample graphs *)

(** The edge 1 -> 2 of the chain. *)
Lemma edges_join_stored_vertices_chain :
  (GetEdgeByHashes (history Sample.IntHash Sample.acyclic Sample.chainCalls) 1 2).2 = true ∧
  (is_Some (vertices (history Sample.IntHash Sample.acyclic Sample.chainCalls) !! 1) ∧
   is_Some (vertices (history Sample.IntHash Sample.acyclic Sample.chainCalls) !! 2)).
Proof.
  assert (He : (GetEdgeByHashes (history Sample.IntHash Sample.acyclic Sample.chainCalls) 1 2).2
               = true) by (vm_compute; reflexivity).
  exact (conj He (edges_join_stored_vertices Sample.IntHash Sample.acyclic
                    Sample.chainCalls 1 2 He)).
Defined.

(** The path 1 -> 2 -> 3 of the chain, and no path back. *)
Lemma enforced_graph_has_no_cycle_chain :
  tc (successor (history Sample.IntHash {| isAcyclic := true |} Sample.chainCalls)) 1 3 ∧
  ¬ tc (successor (history Sample.IntHash {| isAcyclic := true |} Sample.chainCalls)) 3 1.
Proof.
  assert (Hp : tc (successor (history Sample.IntHash {| isAcyclic := true |}
                                Sample.chainCalls)) 1 3).
  { apply tc_l with 2; [|apply tc_once]; vm_compute; eexists; reflexivity. }
  exact (conj Hp (enforced_graph_has_no_cycle Sample.IntHash Sample.chainCalls 1 3 Hp)).
Defined.

(** The vertex stored under 2 in the chain. *)
Lemma stored_under_own_hash_chain :
  vertices (history Sample.IntHash Sample.acyclic Sample.chainCalls) !! 2 = Some 2 ∧
  Sample.IntHash 2 = 2.
Proof.
  assert (Hv : vertices (history Sample.IntHash Sample.acyclic Sample.chainCalls) !! 2
               = Some 2) by (vm_compute; reflexivity).
  exact (conj Hv (stored_under_own_hash Sample.IntHash Sample.acyclic
                    Sample.chainCalls 2 2 Hv)).
Defined.

(** The two edges of the chain. *)
Lemma edgesAreEqual_stored_chain :
  (GetEdgeByHashes (history Sample.IntHash Sample.acyclic Sample.chainCalls) 1 2
   = ({| Source := 1; Target := 2; Weight := 0 |}, true) ∧
   GetEdgeByHashes (history Sample.IntHash Sample.acyclic Sample.chainCalls) 2 3
   = ({| Source := 2; Target := 3; Weight := 0 |}, true)) ∧
  (edgesAreEqual (history Sample.IntHash Sample.acyclic Sample.chainCalls)
     {| Source := 1; Target := 2; Weight := 0 |}
     {| Source := 2; Target := 3; Weight := 0 |} = true ↔ 1 = 2 ∧ 2 = 3).
Proof.
  assert (H1 : GetEdgeByHashes (history Sample.IntHash Sample.acyclic Sample.chainCalls) 1 2
               = ({| Source := 1; Target := 2; Weight := 0 |}, true))
    by (vm_compute; reflexivity).
  assert (H2 : GetEdgeByHashes (history Sample.IntHash Sample.acyclic Sample.chainCalls) 2 3
               = ({| Source := 2; Target := 3; Weight := 0 |}, true))
    by (vm_compute; reflexivity).
  exact (conj (conj H1 H2)
           (edgesAreEqual_stored Sample.IntHash Sample.acyclic Sample.chainCalls
              1 2 2 3 _ _ H1 H2)).
Defined.

(** Adding 1 -> 3 with weight 7 to the chain, then once more with weight 9. *)
Lemma added_edge_found_and_kept_chain :
  WeightedEdgeByHashes (canonicalOrder nat) Sample.chain 1 3 7 = Some (None, Sample.chainPlus) ∧
  ((∃ vs vt, vertices Sample.chain !! 1 = Some vs ∧ vertices Sample.chain !! 3 = Some vt ∧
      GetEdgeByHashes Sample.chainPlus 1 3
      = ({| Source := vs; Target := vt; Weight := 7 |}, true)) ∧
   WeightedEdgeByHashes (reversedOrder nat) Sample.chainPlus 1 3 9
   = Some (Some (ErrEdgeExists 1 3), Sample.chainPlus)).
Proof.
  assert (Hrun : WeightedEdgeByHashes (canonicalOrder nat) Sample.chain 1 3 7
                 = Some (None, Sample.chainPlus)) by (vm_compute; reflexivity).
  exact (conj Hrun (added_edge_found_and_kept (canonicalOrder nat) (reversedOrder nat)
                      Sample.chain 1 3 7 9 Sample.chainPlus Hrun)).
Defined.

Lemma added_edge_touches_one_pair_chain :
  WeightedEdgeByHashes (canonicalOrder nat) Sample.chain 1 3 7 = Some (None, Sample.chainPlus) ∧
  (vertices Sample.chainPlus = vertices Sample.chain ∧
   hash Sample.chainPlus = hash Sample.chain ∧
   props Sample.chainPlus = props Sample.chain ∧
   ∀ a b, (a, b) ≠ (1, 3) →
     GetEdgeByHashes Sample.chainPlus a b = GetEdgeByHashes Sample.chain a b).
Proof.
  assert (Hrun : WeightedEdgeByHashes (canonicalOrder nat) Sample.chain 1 3 7
                 = Some (None, Sample.chainPlus)) by (vm_compute; reflexivity).
  exact (conj Hrun (added_edge_touches_one_pair (canonicalOrder nat)
                      Sample.chain 1 3 7 Sample.chainPlus Hrun)).
Defined.

(** The degree of vertex 1 of the chain goes from 1 to 2. *)
Lemma added_edge_degrees_chain :
  (WeightedEdgeByHashes (canonicalOrder nat)
     (history Sample.IntHash Sample.acyclic Sample.chainCalls) 1 3 7
   = Some (None, Sample.chainPlus) ∧
   is_Some (vertices (history Sample.IntHash Sample.acyclic Sample.chainCalls) !! 1)) ∧
  DegreeByHash Sample.chainPlus 1
  = (((DegreeByHash (history Sample.IntHash Sample.acyclic Sample.chainCalls) 1%nat).1
      + (if decide (1%nat = 1%nat) then 1 else 0)
      + (if decide (1%nat = 3%nat) then 1 else 0))%Z, None).
Proof.
  assert (Hrun : WeightedEdgeByHashes (canonicalOrder nat)
                   (history Sample.IntHash Sample.acyclic Sample.chainCalls) 1 3 7
                 = Some (None, Sample.chainPlus)) by (vm_compute; reflexivity).
  assert (H1 : is_Some (vertices (history Sample.IntHash Sample.acyclic Sample.chainCalls) !! 1))
    by (vm_compute; eexists; reflexivity).
  exact (conj (conj Hrun H1)
           (added_edge_degrees Sample.IntHash Sample.acyclic Sample.chainCalls
              (canonicalOrder nat) 1 3 7 Sample.chainPlus 1 Hrun H1)).
Defined.

(** The candidate edge 3 -> 1 on the chain. *)
Lemma precheck_exact_chain :
  (consistent Sample.chain ∧ (∀ v, ¬ tc (successor Sample.chain) v v) ∧
   is_Some (vertices Sample.chain !! 3) ∧ is_Some (vertices Sample.chain !! 1)) ∧
  ∃ b : bool, CreatesCycleByHashes (canonicalOrder nat) Sample.chain 3 1
              = Some (b, None, Sample.chain)
              ∧ (b = true ↔
                 ∃ v, tc (successor (addEdge Sample.chain 3 1
                                       {| Source := 3; Target := 1; Weight := 0 |})) v v).
Proof.
  assert (Hc : consistent Sample.chain) by apply consistent_history.
  assert (Hno : ∀ v, ¬ tc (successor Sample.chain) v v)
    by exact (no_cycle Sample.chain Hc eq_refl).
  assert (H3 : is_Some (vertices Sample.chain !! 3)) by (vm_compute; eexists; reflexivity).
  assert (H1 : is_Some (vertices Sample.chain !! 1)) by (vm_compute; eexists; reflexivity).
  exact (conj (conj Hc (conj Hno (conj H3 H1)))
           (precheck_exact (canonicalOrder nat) Sample.chain 3 1
              {| Source := 3; Target := 1; Weight := 0 |} Hc Hno H3 H1)).
Defined.

(** A depth-first walk of the sample with a cycle that is stopped at 3. *)
Lemma DFSByHash_any_callback_loop :
  is_Some (vertices Sample.loop !! 1) ∧
  ∃ tr, DFSByHash Sample.stopAtThree (canonicalOrder nat) Sample.loop 1 0
        = Some (None, tr, replay Sample.stopAtThree Sample.loop 0 tr)
        ∧ walked Sample.stopAtThree Sample.loop 1 0 tr.
Proof.
  assert (H1 : is_Some (vertices Sample.loop !! 1)) by (vm_compute; eexists; reflexivity).
  exact (conj H1 (DFSByHash_any_callback Sample.stopAtThree (canonicalOrder nat)
                    Sample.loop 1 0 H1)).
Defined.

(** A breadth-first walk of the sample with a cycle that is stopped at 3. *)
Lemma BFSByHash_any_callback_loop :
  is_Some (vertices Sample.loop !! 1) ∧
  ∃ tr, BFSByHash Sample.stopAtThree (canonicalOrder nat) Sample.loop 1 0
        = Some (None, tr, replay Sample.stopAtThree Sample.loop 0 tr)
        ∧ walked Sample.stopAtThree Sample.loop 1 0 tr.
Proof.
  assert (H1 : is_Some (vertices Sample.loop !! 1)) by (vm_compute; eexists; reflexivity).
  exact (conj H1 (BFSByHash_any_callback Sample.stopAtThree (canonicalOrder nat)
                    Sample.loop 1 0 H1)).
Defined.


(** ** The order of a breadth-first walk *)
Section Levels.
Context {K : Type} `{Countable K}.
Context {T : Type} `{Zero T}.
Context {St : Type} (visit : St → T → bool * St).
Implicit Types (d : directed K T) (ord : RangeOrder K) (s : walkState K St) (st : St).

Lemma StronglySorted_on (R R' : relation K) (l : list K) :
  (∀ x y, x ∈ l → y ∈ l → R x y → R' x y) →
  StronglySorted R l → StronglySorted R' l.
Proof.
  induction l as [|a l IH]; intros Himp; [constructor|].
  rewrite !StronglySorted_cons, !Forall_forall. intros [Ha Hl]. split.
  - intros y Hy. apply Himp; [by left|by right|by apply Ha].
  - apply IH; [|done]. intros x y Hx Hy. apply Himp; by right.
Qed.

Lemma StronglySorted_level (f : K → nat) (c : nat) (l : list K) :
  (∀ x, x ∈ l → f x = c) → StronglySorted (λ x y, f x ≤ f y) l.
Proof.
  induction l as [|a l IH]; intros Hc; constructor.
  - apply IH. intros x Hx. apply Hc. by right.
  - apply Forall_forall. intros y Hy.
    rewrite (Hc a) by by left. by rewrite (Hc y) by by right.
Qed.

Lemma bfsLevels_start d start st :
  bfsLevels d start (λ _, 0) (bfsStart start st).
Proof.
  split; simpl.
  - intros x ->%list_elem_of_singleton. split; [constructor|lia].
  - repeat constructor.
  - lia.
  - lia.
Qed.

Lemma bfsLevels_step ord d start lev s s' :
  bfsInv d start s → bfsLevels d start lev s →
  bfsBody visit ord d s = Continue s' →
  ∃ lev', bfsLevels d start lev' s'.
Proof.
  intros [Honce Hvis Hreach Hstart Hcl] [Hdist Hsorted Hfront Hnear]. unfold bfsBody.
  destruct s as [[|cur queue] seen n tr st]; simpl in *; [done|].
  destruct (visit st _) as [[] st']; [done|].
  destruct (enqueueNew_fold (rangeKeys ord n (inner (outEdges d) cur)) queue seen)
    as (news & -> & Hnd & Hin & _).
  intros; simplify_eq; simpl.
  assert (Hnew : ∀ x, x ∈ news ↔ successor d cur x ∧ x ∉ seen).
  { intros x. by rewrite Hin, (successor_rangeKeys visit ord n d cur x). }
  assert (Hold : ∀ x, x ∈ tr ++ cur :: queue → x ∉ news).
  { intros x Hx Hn. apply Hnew in Hn as [_ Hn]. apply Hn, Hvis.
    apply elem_of_app in Hx. naive_solver. }
  assert (Hcur : cur ∈ tr ++ cur :: queue) by (apply elem_of_app; right; by left).
  assert (Hle : ∀ x, x ∈ tr ++ cur :: queue → lev x ≤ S (lev cur)).
  { intros x Hx. apply Hfront; [done|by left]. }
  assert (Hge : ∀ q, q ∈ queue → lev cur ≤ lev q).
  { intros q Hq. apply StronglySorted_app_1_r, StronglySorted_cons in Hsorted as [Hall _].
    by apply (proj1 (Forall_forall _ _) Hall). }
  set (lev' := λ x, if decide (x ∈ news) then S (lev cur) else lev x).
  assert (Hlev_old : ∀ x, x ∈ tr ++ cur :: queue → lev' x = lev x).
  { intros x Hx. unfold lev'. by rewrite decide_False by by apply Hold. }
  assert (Hlev_new : ∀ x, x ∈ news → lev' x = S (lev cur)).
  { intros x Hx. unfold lev'. by rewrite decide_True. }
  assert (Hmem : ∀ x, x ∈ (tr ++ [cur]) ++ queue ++ news ↔ x ∈ tr ++ cur :: queue ∨ x ∈ news).
  { intros x. rewrite !elem_of_app, !elem_of_cons, elem_of_nil. naive_solver. }
  exists lev'. split; simpl.
  - intros x [Hx|Hx]%Hmem.
    + rewrite Hlev_old by done. by apply Hdist.
    + rewrite Hlev_new by done. apply Hnew in Hx as [Hedge Hfresh]. split.
      * eapply nsteps_r; [|done]. by apply (Hdist cur).
      * intros m Hm. destruct m as [|m].
        { inversion Hm; subst. by destruct Hfresh. }
        apply nsteps_inv_r in Hm as (z & Hz & Hzx).
        destruct (decide (m < lev cur)) as [Hlt|?]; [|lia].
        destruct Hfresh. eapply Hcl; [|done]. by eapply Hnear.
  - replace ((tr ++ [cur]) ++ queue ++ news) with ((tr ++ cur :: queue) ++ news)
      by (by rewrite <-!app_assoc).
    apply StronglySorted_app. split_and!.
    + intros x y Hx Hy. rewrite (Hlev_old x Hx), (Hlev_new y Hy). by apply Hle.
    + eapply StronglySorted_on; [|done]. intros x y Hx Hy.
      by rewrite (Hlev_old x Hx), (Hlev_old y Hy).
    + by apply (StronglySorted_level lev' (S (lev cur))).
  - intros x q [Hx|Hx]%Hmem Hq.
    + rewrite (Hlev_old x Hx). apply elem_of_app in Hq as [Hq|Hq].
      * rewrite Hlev_old by (apply elem_of_app; right; by right).
        specialize (Hle x Hx). specialize (Hge q Hq). lia.
      * rewrite (Hlev_new q Hq). specialize (Hle x Hx). lia.
    + rewrite (Hlev_new x Hx). apply elem_of_app in Hq as [Hq|Hq].
      * rewrite Hlev_old by (apply elem_of_app; right; by right).
        specialize (Hge q Hq). lia.
      * rewrite (Hlev_new q Hq). lia.
  - intros q rest Hwork z k Hz Hk.
    apply elem_of_app. destruct (decide (k < lev cur)) as [Hlt|Hnlt].
    { left. by eapply (Hnear cur queue). }
    assert (Hq : q ∈ queue ++ news) by (rewrite Hwork; by left).
    assert (Hzin : z ∈ tr ++ cur :: queue).
    { destruct k as [|k].
      - inversion Hz; subst. apply Hvis in Hstart. by apply elem_of_app.
      - apply nsteps_inv_r in Hz as (u & Hu & Huz).
        destruct (decide (k < lev cur)) as [Hlt|?].
        + assert (z ∈ seen) as Hzs by (eapply Hcl; [by eapply (Hnear cur queue)|done]).
          apply Hvis in Hzs. apply elem_of_app. naive_solver.
        + assert (lev' q ≤ S (lev cur)).
          { apply elem_of_app in Hq as [Hq|Hq].
            - rewrite Hlev_old by (apply elem_of_app; right; by right).
              apply Hle. apply elem_of_app; right; by right.
            - by rewrite Hlev_new. }
          lia. }
    assert (Hlevz : lev z ≤ k) by (by apply (Hdist z Hzin)).
    apply elem_of_app in Hzin as [?|[->|Hzq]%elem_of_cons]; [by left|right; by left|].
    exfalso. destruct queue as [|q0 queue']; [by apply elem_of_nil in Hzq|].
    simpl in Hwork. simplify_eq.
    rewrite Hlev_old in Hk by (apply elem_of_app; right; right; by left).
    assert (lev q ≤ lev z); [|lia].
    apply elem_of_cons in Hzq as [->|Hzq]; [done|].
    apply StronglySorted_app_1_r, StronglySorted_cons in Hsorted as [_ Hs2].
    apply StronglySorted_cons in Hs2 as [Hall _].
    by apply (proj1 (Forall_forall _ _) Hall).
Qed.

Lemma bfsBody_exit_levels ord d start lev s r :
  bfsLevels d start lev s → bfsBody visit ord d s = Exit r →
  (∀ x, x ∈ calls r → distance d start x (lev x)) ∧
  StronglySorted (λ x y, lev x ≤ lev y) (calls r).
Proof.
  intros [Hdist Hsorted _ _]. unfold bfsBody.
  destruct s as [[|cur queue] seen n tr st]; simpl in *.
  - intros; simplify_eq; simpl. rewrite app_nil_r in *. done.
  - destruct (visit st _) as [[] st']; intros; simplify_eq; simpl.
    replace (tr ++ cur :: queue) with ((tr ++ [cur]) ++ queue) in *
      by (by rewrite <-app_assoc).
    split.
    + intros x Hx. apply Hdist, elem_of_app. by left.
    + by eapply StronglySorted_app_1_l.
Qed.

(** X20: [BFSByHash] calls the callback on the nearest vertices first:
    whatever the callback, of two calls the earlier one is on a vertex at
    most as far from the start, by the least number of forward edges, as
    the vertex of the later one. *)
Theorem BFSByHash_nearest_first ord d (start : K) st :
  is_Some (vertices d !! start) →
  ∃ tr st', BFSByHash visit ord d start st = Some (None, tr, st') ∧
    ∀ l1 x l2 y, tr = l1 ++ x :: l2 → y ∈ l2 →
      ∃ n m, distance d start x n ∧ distance d start y m ∧ n ≤ m.
Proof.
  intros [v Hv]. unfold BFSByHash. rewrite Hv.
  destruct (bfsLoop_terminates visit ord d start st) as [r Hr]. rewrite Hr. simpl.
  exists (calls r), (closure r). split; [done|].
  destruct (iterate_exit (bfsBody visit ord d)
              (λ s, bfsInv d start s ∧ ∃ lev, bfsLevels d start lev s))
    with (fuel := entryCount (outEdges d) + 2) (s := bfsStart start st) (r := r)
    as (s0 & (Hinv & lev & Hlev) & Hexit); [| |done|].
  - intros s s' (Hinv & lev & Hlev) Hb. split.
    + by eapply bfsInv_step.
    + by eapply bfsLevels_step.
  - split; [apply (bfsInv_start visit)|]. eexists. apply bfsLevels_start.
  - destruct (bfsBody_exit_levels ord d start lev s0 r Hlev Hexit) as [Hdist Hsorted].
    intros l1 x l2 y Htr Hy. rewrite Htr in Hdist, Hsorted.
    exists (lev x), (lev y). split_and!.
    + apply Hdist. apply elem_of_app; right; by left.
    + apply Hdist. apply elem_of_app; right; by right.
    + apply StronglySorted_app_1_r, StronglySorted_cons in Hsorted as [Hall _].
      by apply (proj1 (Forall_forall _ _) Hall).
Qed.

End Levels.

(** A breadth-first walk of the sample with a cycle, neighbours reversed. *)
Lemma BFSByHash_nearest_first_loop :
  is_Some (vertices Sample.loop !! 1) ∧
  ∃ tr st', BFSByHash Sample.countCalls (reversedOrder nat) Sample.loop 1 0
            = Some (None, tr, st') ∧
    ∀ l1 x l2 y, tr = l1 ++ x :: l2 → y ∈ l2 →
      ∃ n m, distance Sample.loop 1 x n ∧ distance Sample.loop 1 y m ∧ n ≤ m.
Proof.
  assert (H1 : is_Some (vertices Sample.loop !! 1)) by (vm_compute; eexists; reflexivity).
  exact (conj H1 (BFSByHash_nearest_first Sample.countCalls (reversedOrder nat)
                    Sample.loop 1 0 H1)).
Defined.
